(** * TextStatistics.js: a shallow embedding and its verified properties

    The development models [src/TextStatistics.js].  JavaScript strings are
    modelled as lists of 8-bit characters (code units 0..255, i.e. the
    Latin-1 range); regular-expression literals are values of an inductive
    type [regex] interpreted by a backtracking matcher that returns the
    candidate match lengths in the priority order of the ECMAScript
    matcher (greedy quantifiers, left alternative first). *)

From Stdlib Require Import List Ascii String ZArith Lia Bool Arith Reals Lra.
Import ListNotations.

Set Implicit Arguments.

(** * A fragment of JavaScript: strings, regular expressions, values *)

Module JS.

(** ** Strings and character classes *)

Definition str := list ascii.

Definition L (s : string) : str := list_ascii_of_string s.

Definition code (c : ascii) : N := N_of_ascii c.

Definition chr (c : ascii) : ascii -> bool := Ascii.eqb c.

Definition one_of (s : string) (c : ascii) : bool := existsb (Ascii.eqb c) (L s).

Definition none_of (s : string) (c : ascii) : bool := negb (one_of s c).

Definition between (lo hi : ascii) (c : ascii) : bool :=
  (N.leb (code lo) (code c) && N.leb (code c) (code hi))%bool.

Definition LF : ascii := ascii_of_N 10.
Definition CR : ascii := ascii_of_N 13.

(** [\s] restricted to the code units below 256: TAB, LF, VT, FF, CR,
    SPACE and NO-BREAK SPACE. *)
Definition ws (c : ascii) : bool :=
  (between (ascii_of_N 9) (ascii_of_N 13) c || chr " " c || chr (ascii_of_N 160) c)%bool.

(** [.] : any character but a line terminator. *)
Definition dot_any (c : ascii) : bool := negb (chr LF c || chr CR c).

(** [String.prototype.toLowerCase] on code units below 256. *)
Definition lower_char (c : ascii) : ascii :=
  if (between "A" "Z" c
      || between (ascii_of_N 192) (ascii_of_N 214) c
      || between (ascii_of_N 216) (ascii_of_N 222) c)%bool
  then ascii_of_N (code c + 32) else c.

Definition toLowerCase (s : str) : str := map lower_char s.

(** ** Regular expressions *)

Inductive regex : Type :=
| Chr (p : ascii -> bool)      (* a character or a character class *)
| Bol                          (* ^ (no multiline flag anywhere in the source) *)
| Eol                          (* $ *)
| Eps
| Seq (r1 r2 : regex)
| Alt (r1 r2 : regex)
| Star (p : ascii -> bool)     (* greedy [c]* on a class *)
| Back1 (p : ascii -> bool).   (* ([c])\1 : a class character, then the same character *)

Declare Scope re_scope.
Delimit Scope re_scope with re.
Bind Scope re_scope with regex.
Infix ";;" := Seq (at level 61, right associativity) : re_scope.
Infix "<|>" := Alt (at level 62, right associativity) : re_scope.

Definition Plus (p : ascii -> bool) : regex := (Chr p ;; Star p)%re.
Definition Opt (r : regex) : regex := (r <|> Eps)%re.
Definition Lit (c : ascii) : regex := Chr (chr c).

(** Lengths a greedy class star can consume, longest first. *)
Fixpoint star_lens (p : ascii -> bool) (s : str) : list nat :=
  match s with
  | c :: s' => if p c then map S (star_lens p s') ++ [0] else [0]
  | [] => [0]
  end.

(** [mt r b s]: the lengths of the matches of [r] at the head of [s], in
    backtracking order; [b] tells whether the head of [s] is index 0 of
    the subject string. *)
Fixpoint mt (r : regex) (b : bool) (s : str) : list nat :=
  match r with
  | Chr p => match s with c :: _ => if p c then [1] else [] | [] => [] end
  | Bol => if b then [0] else []
  | Eol => match s with [] => [0] | _ :: _ => [] end
  | Eps => [0]
  | Seq r1 r2 =>
      flat_map (fun n => map (Nat.add n) (mt r2 (b && (n =? 0)) (skipn n s)))
               (mt r1 b s)
  | Alt r1 r2 => mt r1 b s ++ mt r2 b s
  | Star p => star_lens p s
  | Back1 p =>
      match s with
      | c :: d :: _ => if (p c && Ascii.eqb c d)%bool then [2] else []
      | _ => []
      end
  end.

(** The match the engine reports at this position, if any. *)
Definition exec (r : regex) (b : bool) (s : str) : option nat := hd_error (mt r b s).

(** [RegExp.prototype.test] on a fresh regex object ([lastIndex] is 0). *)
Fixpoint search (r : regex) (b : bool) (s : str) : bool :=
  match exec r b s with
  | Some _ => true
  | None => match s with [] => false | _ :: s' => search r false s' end
  end.

Definition test (r : regex) (s : str) : bool := search r true s.

(** [String.prototype.replace] with a global regex and a replacement
    string without [$]: [skip] counts the characters of the current match
    still to be dropped. After an empty match the scan advances by one. *)
Fixpoint replace_from (r : regex) (rep : str) (b : bool) (skip : nat) (s : str) : str :=
  match skip with
  | S k => match s with [] => [] | _ :: s' => replace_from r rep false k s' end
  | O =>
      match exec r b s with
      | Some (S k) =>
          rep ++ match s with [] => [] | _ :: s' => replace_from r rep false k s' end
      | Some O =>
          rep ++ match s with [] => [] | c :: s' => c :: replace_from r rep false 0 s' end
      | None =>
          match s with [] => [] | c :: s' => c :: replace_from r rep false 0 s' end
      end
  end.

Definition replace_g (r : regex) (rep : str) (s : str) : str :=
  replace_from r rep true 0 s.

(** [String.prototype.replace] with a regex without the [g] flag: the
    first match only. *)
Fixpoint replace_first_from (r : regex) (rep : str) (b : bool) (s : str) : str :=
  match exec r b s with
  | Some n => rep ++ skipn n s
  | None => match s with [] => [] | c :: s' => c :: replace_first_from r rep false s' end
  end.

Definition replace_first (r : regex) (rep : str) (s : str) : str :=
  replace_first_from r rep true s.

Fixpoint starts_with (pat s : str) : bool :=
  match pat, s with
  | [], _ => true
  | p :: pat', c :: s' => (Ascii.eqb p c && starts_with pat' s')%bool
  | _ :: _, [] => false
  end.

(** [String.prototype.replace] with a string pattern: the first occurrence
    only. *)
Fixpoint replace_str (pat rep : str) (s : str) : str :=
  if starts_with pat s then rep ++ skipn (List.length pat) s
  else match s with [] => [] | c :: s' => c :: replace_str pat rep s' end.

(** [String.prototype.match] with a global regex: the list of matched
    substrings, or [null] (here [None]) when there is none. *)
Fixpoint matches_from (r : regex) (b : bool) (skip : nat) (s : str) : list str :=
  match skip with
  | S k => match s with [] => [] | _ :: s' => matches_from r false k s' end
  | O =>
      match exec r b s with
      | Some (S k) =>
          firstn (S k) s :: match s with [] => [] | _ :: s' => matches_from r false k s' end
      | Some O =>
          [] :: match s with [] => [] | _ :: s' => matches_from r false 0 s' end
      | None =>
          match s with [] => [] | _ :: s' => matches_from r false 0 s' end
      end
  end.

Definition match_g (r : regex) (s : str) : option (list str) :=
  match matches_from r true 0 s with
  | [] => None
  | l => Some l
  end.

(** [String.prototype.split] with a non-empty string separator; [cur] is
    the piece being read, reversed. *)
Fixpoint split_from (sep : str) (cur : str) (skip : nat) (s : str) : list str :=
  match skip with
  | S k => match s with [] => [rev cur] | _ :: s' => split_from sep cur k s' end
  | O =>
      match s with
      | [] => [rev cur]
      | c :: s' =>
          if starts_with sep s
          then rev cur :: split_from sep [] (List.length sep - 1) s'
          else split_from sep (c :: cur) 0 s'
      end
  end.

Definition split (sep : str) (s : str) : list str := split_from sep [] 0 s.

(** [String.prototype.split] with a regex separator (no capture groups
    are returned by the separators of the source).  The matcher is tried
    at every index below the length; a match that ends where the current
    piece starts is skipped. *)
Fixpoint split_re_from (r : regex) (b : bool) (cur : str) (skip : nat) (s : str) : list str :=
  match skip with
  | S k => match s with [] => [rev cur] | _ :: s' => split_re_from r false cur k s' end
  | O =>
      match s with
      | [] => [rev cur]
      | c :: s' =>
          match exec r b s with
          | Some (S k) => rev cur :: split_re_from r false [] k s'
          | Some O =>
              match cur with
              | [] => split_re_from r false [c] 0 s'
              | _ :: _ => rev cur :: split_re_from r false [c] 0 s'
              end
          | None => split_re_from r false (c :: cur) 0 s'
          end
      end
  end.

Definition split_re (r : regex) (s : str) : list str :=
  match s with
  | [] => match exec r true [] with Some _ => [] | None => [[]] end
  | _ :: _ => split_re_from r true [] 0 s
  end.

(** A literal run of characters, as in [/cial/]. *)
Fixpoint lit_of (s : str) : regex :=
  match s with
  | [] => Eps
  | [c] => Lit c
  | c :: s' => (Lit c ;; lit_of s')%re
  end.

Definition lit (s : string) : regex := lit_of (L s).

(** ** Values and completions *)

(** What a method of the source can hand back where a number is expected:
    a number, an object reached through [Object.prototype] (the function
    [Object] under the key [constructor], the prototype object under
    [__proto__]), or a string that is not a numeric literal (the result of
    [+] on such an object). *)
Inductive jsval : Type :=
| VNum (z : Z)
| VObj (key : string)
| VText.

(** A call either returns or throws (the only throw the source can reach
    is the [TypeError] of [null.length]). *)
Inductive outcome (A : Type) : Type :=
| Returns (a : A)
| Throws.

Arguments Throws {A}.

Definition bind {A B : Type} (m : outcome A) (f : A -> outcome B) : outcome B :=
  match m with
  | Returns a => f a
  | Throws => Throws
  end.

Notation "'let!' x ':=' m 'in' k" := (bind m (fun x => k))
  (at level 10, x name, m at level 100, k at level 200).

(** Results of the arithmetic on doubles, idealised: a real number, or
    [NonFinite] for NaN and the infinities.  Rounding is not modelled. *)
Inductive number : Type :=
| Finite (x : R)
| NonFinite.

Definition lift2 (f : R -> R -> R) (a b : number) : number :=
  match a, b with
  | Finite x, Finite y => Finite (f x y)
  | _, _ => NonFinite
  end.

Definition nadd : number -> number -> number := lift2 Rplus.
Definition nsub : number -> number -> number := lift2 Rminus.
Definition nmul : number -> number -> number := lift2 Rmult.

(** Division by an integer count (every divisor of the source is one). *)
Definition ndiv (a : number) (d : Z) : number :=
  match a with
  | Finite x => if (d =? 0)%Z then NonFinite else Finite (x / IZR d)
  | NonFinite => NonFinite
  end.

Definition nsqrt (a : number) : number :=
  match a with
  | Finite x => if Rle_dec 0 x then Finite (sqrt x) else NonFinite
  | NonFinite => NonFinite
  end.

Definition of_Z (z : Z) : number := Finite (IZR z).

(** [ToNumber] on a value. *)
Definition to_number (v : jsval) : number :=
  match v with
  | VNum z => of_Z z
  | VObj _ => NonFinite
  | VText => NonFinite
  end.

(** The operator [+] of [intSyllableCount += ...]. *)
Definition js_add (a b : jsval) : jsval :=
  match a, b with
  | VNum x, VNum y => VNum (x + y)
  | _, _ => VText
  end.

(** [v > 2] *)
Definition js_gt2 (v : jsval) : bool :=
  match v with
  | VNum z => (2 <? z)%Z
  | _ => false
  end.

End JS.

Import JS.

(** * The object [TextStatistics] *)

Module TextStatistics.

(** ** clean_text *)

Definition arrFullStopTags : list string :=
  ["li"; "p"; "h1"; "h2"; "h3"; "h4"; "h5"; "h6"; "dd"]%string.

(** [/(<([^>]+)>)/ig]; the pattern has no letter, so the [i] flag is idle. *)
Definition objTags : regex := (Lit "<" ;; Plus (none_of ">") ;; Lit ">")%re.

(** [/[,:;()-]/g] *)
Definition re_punct : regex := Chr (one_of ",:;()-").

(** [/[\.!?]/g] *)
Definition re_term : regex := Chr (one_of ".!?").

(** [/(?:(?:^|\n)\s+|\s+(?:$|\n))/g] *)
Definition re_trim : regex :=
  (((Bol <|> Lit LF) ;; Plus ws) <|> (Plus ws ;; (Eol <|> Lit LF)))%re.

(** [/\s+/g] *)
Definition re_spaces : regex := Plus ws.

(** [/[ ]*(\n|\r\n|\r)[ ]*/g] *)
Definition re_newline : regex :=
  (Star (chr " ") ;; (Lit LF <|> (Lit CR ;; Lit LF) <|> Lit CR) ;; Star (chr " "))%re.

(** [/([\.])[\. ]+/g] *)
Definition re_dup : regex := (Lit "." ;; Plus (one_of ". "))%re.

(** [/[ ]*([\.])/g] *)
Definition re_pad : regex := (Star (chr " ") ;; Lit ".")%re.

(** [/[ ]+/g] *)
Definition re_multi : regex := Plus (chr " ").

(** One turn of the loop over [arrFullStopTags]: a string pattern, hence
    the first occurrence only. *)
Definition full_stop_tag (strText : str) (tag : string) : str :=
  replace_str (L "</" ++ L tag ++ L ">") (L ".") strText.

Definition clean_text (strText : str) : str :=
  let strText := fold_left full_stop_tag arrFullStopTags strText in
  let strText := replace_g objTags [] strText in
  let strText := replace_g re_punct (L " ") strText in
  let strText := replace_g re_term (L ".") strText in
  let strText := replace_g re_spaces (L " ") (replace_g re_trim [] strText) ++ L "." in
  let strText := replace_g re_newline (L " ") strText in
  let strText := replace_g re_dup (L ".") strText in
  let strText :=
    replace_g re_spaces (L " ") (replace_g re_trim [] (replace_g re_pad (L ". ") strText)) in
  let strText := replace_g re_multi (L " ") strText in
  toLowerCase strText.

(** ** Counters *)

Definition text_length (strText : str) : Z := Z.of_nat (List.length strText).

(** [/[^A-Za-z]+/g] *)
Definition re_non_letters : regex :=
  Plus (fun c => negb (between "A" "Z" c || between "a" "z" c)).

Definition letter_count (strText : str) : Z :=
  let strText := clean_text strText in
  let strText := replace_g re_non_letters [] strText in
  text_length strText.

(** [match] returns [null] when nothing matches, and [null.length] throws. *)
Definition sentence_count (strText : str) : outcome Z :=
  let strText := clean_text strText in
  match match_g re_term strText with
  | Some intSentences => Returns (Z.of_nat (List.length intSentences))
  | None => Throws
  end.

(** [/[^ ]/g] *)
Definition re_non_space : regex := Chr (none_of " ").

Definition word_count (strText : str) : Z :=
  let strText := clean_text strText in
  1 + text_length (replace_g re_non_space [] strText).

Definition average_words_per_sentence (strText : str) : outcome number :=
  let strText := clean_text strText in
  let! intSentenceCount := sentence_count strText in
  let intWordCount := word_count strText in
  Returns (ndiv (of_Z intWordCount) intSentenceCount).

(** ** syllable_count *)

Local Open Scope Z_scope.

(** The object literal [arrProblemWords]. *)
Definition arrProblemWords : list (string * Z) :=
  [("simile", 3); ("forever", 3); ("shoreline", 2)]%string%Z.

(** The lower-case property names every object inherits from
    [Object.prototype]. *)
Definition inherited_keys : list string := ["constructor"; "__proto__"]%string.

Fixpoint own_property (o : list (string * Z)) (k : str) : option Z :=
  match o with
  | [] => None
  | (k', v) :: o' =>
      if list_eq_dec ascii_dec (L k') k then Some v else own_property o' k
  end.

(** [arrProblemWords[strWord]]: an own property, else one found on the
    prototype chain, else [undefined] (here [None]). *)
Definition get_property (o : list (string * Z)) (k : str) : option jsval :=
  match own_property o k with
  | Some v => Some (VNum v)
  | None =>
      match find (fun k' => if list_eq_dec ascii_dec (L k') k then true else false)
                 inherited_keys with
      | Some k' => Some (VObj k')
      | None => None
      end
  end.

Definition truthy (v : option jsval) : bool :=
  match v with
  | Some (VNum z) => negb (z =? 0)%Z
  | Some (VObj _) => true
  | Some VText => true
  | None => false
  end.

Definition arrSubSyllables : list regex :=
  [ lit "cial";
    lit "tia";
    lit "cius";
    lit "cious";
    lit "giu";
    lit "ion";
    lit "iou";
    lit "sia" ;; Eol;
    Chr (none_of "aeiuoyt") ;; Chr (none_of "aeiuoyt") ;; Star (none_of "aeiuoyt")
      ;; lit "ed" ;; Eol;
    Chr dot_any ;; lit "ely" ;; Eol;
    Chr (one_of "cg") ;; Opt (Lit "h") ;; Lit "e" ;; Opt (Chr (one_of "rsd")) ;; Eol;
    lit "rve" ;; Opt (Lit "d") ;; Eol;
    Chr (one_of "aeiouy") ;; Chr (one_of "dt") ;; Lit "e" ;; Opt (Lit "s") ;; Eol;
    Chr (one_of "aeiouy") ;; Chr (none_of "aeiouydt") ;; Lit "e"
      ;; Opt (Chr (one_of "rsd")) ;; Eol;
    Bol ;; Chr (one_of "dr") ;; Lit "e" ;; Chr (one_of "aeiou")
      ;; Plus (none_of "aeiou") ;; Eol;
    Chr (one_of "aeiouy") ;; lit "rse" ;; Eol
  ]%re.

Definition arrAddSyllables : list regex :=
  [ lit "ia";
    lit "riet";
    lit "dien";
    lit "iu";
    lit "io";
    lit "ii";
    Chr (one_of "aeiouym") ;; lit "bl" ;; Eol;
    Chr (one_of "aeiou") ;; Chr (one_of "aeiou") ;; Chr (one_of "aeiou");
    Bol ;; lit "mc";
    lit "ism" ;; Eol;
    Back1 (none_of "aeiouy") ;; Lit "l" ;; Eol;
    Chr (none_of "l") ;; lit "lien";
    Bol ;; lit "coa" ;; Chr (one_of "dglx") ;; Chr dot_any;
    Chr (none_of "gq") ;; lit "ua" ;; Chr (none_of "auieo");
    lit "dnt" ;; Eol;
    lit "uity" ;; Eol;
    lit "ie" ;; (Lit "r" <|> lit "st") ;; Eol
  ]%re.

(** [arrPrefixSuffix]; the flag tells whether the literal carries [g]. *)
Definition arrPrefixSuffix : list (regex * bool) :=
  [ (Bol ;; lit "un", false);
    (Bol ;; lit "fore", true);
    (lit "ly" ;; Eol, true);
    (lit "less" ;; Eol, true);
    (lit "ful" ;; Eol, true);
    (lit "er" ;; Opt (Lit "s") ;; Eol, true);
    (lit "ing" ;; Opt (Lit "s") ;; Eol, true)
  ]%re.

(** One turn of the loop that removes prefixes and suffixes. *)
Definition strip_affix (st : str * Z) (p : regex * bool) : str * Z :=
  let '(strWord, intPrefixSuffixCount) := st in
  let '(r, g) := p in
  if test r strWord
  then ((if g then replace_g r [] strWord else replace_first r [] strWord),
        intPrefixSuffixCount + 1)%Z
  else st.

(** [/[^a-z]/g] *)
Definition re_non_lower : regex := Chr (fun c => negb (between "a" "z" c)).

(** [/[^aeiouy]+/g] *)
Definition re_consonants : regex := Plus (none_of "aeiouy").

Definition is_empty (s : str) : bool := match s with [] => true | _ :: _ => false end.

(** The arithmetic on the stripped word: nuclei plus affixes, one off for
    each matching entry of [arrSubSyllables], one on for each of
    [arrAddSyllables]. *)
Definition pattern_count (strWord : str) (intPrefixSuffixCount : Z) : Z :=
  let arrWordParts := split_re re_consonants strWord in
  let intWordPartCount :=
    fold_left (fun n part => if is_empty part then n else n + 1) arrWordParts 0 in
  let intSyllableCount := intWordPartCount + intPrefixSuffixCount in
  let intSyllableCount :=
    fold_left (fun n r => if test r strWord then n - 1 else n) arrSubSyllables
              intSyllableCount in
  fold_left (fun n r => if test r strWord then n + 1 else n) arrAddSyllables
            intSyllableCount.

Definition syllable_count (strWord : str) : jsval :=
  let strWord := toLowerCase strWord in
  let found := get_property arrProblemWords strWord in
  if truthy found then
    match found with Some v => v | None => VNum 0 end
  else
    let '(strWord, intPrefixSuffixCount) := fold_left strip_affix arrPrefixSuffix (strWord, 0) in
    let strWord := replace_g re_non_lower [] strWord in
    let intSyllableCount := pattern_count strWord intPrefixSuffixCount in
    let intSyllableCount := if intSyllableCount =? 0 then 1 else intSyllableCount in
    VNum intSyllableCount.

(** ** Averages and long words *)

(** The loop [intSyllableCount += this.syllable_count(arrWords[intWords])].
    [syllable_count] assigns the same global [intSyllableCount], but [+=]
    reads its left operand before the call and stores after it, so the
    running sum survives. *)
Definition average_syllables_per_word (strText : str) : number :=
  let strText := clean_text strText in
  let intWordCount := word_count strText in
  let arrWords := split (L " ") strText in
  let intSyllableCount :=
    fold_left (fun acc w => js_add acc (syllable_count w)) arrWords (VNum 0) in
  ndiv (to_number intSyllableCount) intWordCount.

(** [strFirstLetter !== strFirstLetter.toUpperCase()] for the first
    character of a word: true for the characters [toUpperCase] changes. *)
Definition first_letter_is_lower (w : str) : bool :=
  match w with
  | [] => false
  | c :: _ =>
      (between "a" "z" c || chr (ascii_of_N 181) c
       || (between (ascii_of_N 223) (ascii_of_N 255) c && negb (chr (ascii_of_N 247) c)))%bool
  end.

Definition flag_truthy (f : option bool) : bool :=
  match f with
  | Some b => b
  | None => false
  end.

(** The second argument ([None] when the caller leaves it out) is
    overwritten with [true] by the first statement. *)
Definition words_with_three_syllables (strText : str) (blnCountProperNouns : option bool) : Z :=
  let blnCountProperNouns := Some true in
  let strText := clean_text strText in
  let arrWords := split (L " ") strText in
  fold_left
    (fun intLongWordCount w =>
       if js_gt2 (syllable_count w) then
         if flag_truthy blnCountProperNouns then intLongWordCount + 1
         else if first_letter_is_lower w then intLongWordCount + 1
              else intLongWordCount
       else intLongWordCount)
    arrWords 0.

(** [intWordCount] is a global: the callee [words_with_three_syllables]
    assigns it again (from the text it has cleaned once more) before the
    division reads it. *)
Definition percentage_words_with_three_syllables
           (strText : str) (blnCountProperNouns : option bool) : number :=
  let blnCountProperNouns := Some true in
  let strText := clean_text strText in
  let intLongWordCount := words_with_three_syllables strText blnCountProperNouns in
  let intWordCount := word_count (clean_text strText) in
  nmul (ndiv (of_Z intLongWordCount) intWordCount) (Finite 100).

(** ** Readability scores *)

Local Open Scope R_scope.

Definition flesch_kincaid_reading_ease (strText : str) : outcome number :=
  let strText := clean_text strText in
  let! awps := average_words_per_sentence strText in
  Returns (nsub (nsub (Finite 206.835) (nmul (Finite 1.015) awps))
                (nmul (Finite 84.6) (average_syllables_per_word strText))).

Definition flesch_kincaid_grade_level (strText : str) : outcome number :=
  let strText := clean_text strText in
  let! awps := average_words_per_sentence strText in
  Returns (nsub (nadd (nmul (Finite 0.39) awps)
                      (nmul (Finite 11.8) (average_syllables_per_word strText)))
                (Finite 15.59)).

Definition gunning_fog_score (strText : str) : outcome number :=
  let strText := clean_text strText in
  let! awps := average_words_per_sentence strText in
  Returns (nmul (nadd awps (percentage_words_with_three_syllables strText (Some false)))
                (Finite 0.4)).

Definition coleman_liau_index (strText : str) : outcome number :=
  let strText := clean_text strText in
  let! sc := sentence_count strText in
  Returns (nsub (nsub (nmul (Finite 5.89)
                            (ndiv (of_Z (letter_count strText)) (word_count strText)))
                      (nmul (Finite 0.3) (ndiv (of_Z sc) (word_count strText))))
                (Finite 15.8)).

Definition smog_index (strText : str) : outcome number :=
  let strText := clean_text strText in
  let! sc := sentence_count strText in
  Returns (nmul (Finite 1.043)
                (nsqrt (nadd (nmul (of_Z (words_with_three_syllables strText None))
                                   (ndiv (Finite 30) sc))
                             (Finite 3.1291)))).

Definition automated_readability_index (strText : str) : outcome number :=
  let strText := clean_text strText in
  let! sc := sentence_count strText in
  Returns (nsub (nadd (nmul (Finite 4.71)
                            (ndiv (of_Z (letter_count strText)) (word_count strText)))
                      (nmul (Finite 0.5) (ndiv (of_Z (word_count strText)) sc)))
                (Finite 21.43)).

Definition average_grade_level (strText : str) : outcome number :=
  let! fk := flesch_kincaid_grade_level strText in
  let! gf := gunning_fog_score strText in
  let! cl := coleman_liau_index strText in
  let! sm := smog_index strText in
  let! ar := automated_readability_index strText in
  Returns (ndiv (nadd (nadd (nadd (nadd fk gf) cl) sm) ar) 5).

Record statistics : Type := {
  st_letter_count : Z;
  st_word_count : Z;
  st_sentence_count : Z;
  st_average_syllables_per_word : number;
  st_average_words_per_sentence : number
}.

Record result : Type := {
  original : str;
  cleaned : str;
  stats : statistics;
  r_flesch_kincaid_reading_ease : number;
  r_flesch_kincaid_grade_level : number;
  r_gunning_fog_score : number;
  r_coleman_liau_index : number;
  r_smog_index : number;
  r_automated_readability_index : number;
  r_average_grade_level : number
}.

Definition all (strText : str) : outcome result :=
  let! sc := sentence_count strText in
  let! awps := average_words_per_sentence strText in
  let! fre := flesch_kincaid_reading_ease strText in
  let! fkg := flesch_kincaid_grade_level strText in
  let! gf := gunning_fog_score strText in
  let! cl := coleman_liau_index strText in
  let! sm := smog_index strText in
  let! ar := automated_readability_index strText in
  let! avg := average_grade_level strText in
  Returns {|
    original := strText;
    cleaned := clean_text strText;
    stats := {|
      st_letter_count := letter_count strText;
      st_word_count := word_count strText;
      st_sentence_count := sc;
      st_average_syllables_per_word := average_syllables_per_word strText;
      st_average_words_per_sentence := awps |};
    r_flesch_kincaid_reading_ease := fre;
    r_flesch_kincaid_grade_level := fkg;
    r_gunning_fog_score := gf;
    r_coleman_liau_index := cl;
    r_smog_index := sm;
    r_automated_readability_index := ar;
    r_average_grade_level := avg |}.

Local Close Scope R_scope.
Local Close Scope Z_scope.

End TextStatistics.

Import TextStatistics.

(** * Notions used to state and prove the properties *)

(** ** Specification-side notions *)

(** A sentence terminator, as [sentence_count] recognises it. *)
Definition terminator : ascii -> bool := one_of ".!?".

(** An upper-case letter among the code units below 256. *)
Definition is_upper (c : ascii) : bool :=
  (between "A" "Z" c
   || between (ascii_of_N 192) (ascii_of_N 214) c
   || between (ascii_of_N 216) (ascii_of_N 222) c)%bool.

(** The arithmetic mean the specification speaks of: the sum of the
    scores divided by how many there are. *)
Definition mean (xs : list number) : number :=
  ndiv (fold_left nadd xs (Finite 0%R)) (Z.of_nat (List.length xs)).

(** ** Direct forms of the replacements of [clean_text] *)

(** Length of the longest prefix inside a class. *)
Fixpoint run_len (p : ascii -> bool) (s : str) : nat :=
  match s with
  | c :: s' => if p c then S (run_len p s') else O
  | [] => O
  end.

(** The character that stops the longest class run. *)
Definition after_run (p : ascii -> bool) (s : str) : option ascii :=
  hd_error (skipn (run_len p s) s).

(** Whether a full stop ends the spaces at the head of the text. *)
Definition dot_next (s : str) : bool :=
  match after_run (chr " ") s with
  | Some d => chr "." d
  | None => false
  end.

(** Whether a tag can be closed from here: a character other than [>],
    and a [>] somewhere after it. *)
Definition opens (s : str) : bool :=
  match s with
  | d :: v =>
      (none_of ">" d && match after_run (none_of ">") v with Some _ => true | None => false end)%bool
  | [] => false
  end.

(** Every run of class characters becomes [rep]. *)
Fixpoint squeeze (p : ascii -> bool) (rep : str) (inrun : bool) (s : str) : str :=
  match s with
  | [] => []
  | c :: s' =>
      if p c then (if inrun then squeeze p rep true s' else rep ++ squeeze p rep true s')
      else c :: squeeze p rep false s'
  end.

Inductive cclass : Type := CDot | CSp | CWs | COther.

Definition ck (c : ascii) : cclass :=
  if Ascii.eqb c "." then CDot
  else if Ascii.eqb c " " then CSp
  else if ws c then CWs
  else COther.

(** No white space other than the space itself. *)
Definition no_odd_space (s : str) : Prop := Forall (fun c => ck c <> CWs) s.

(** After a full stop, the full stops and spaces that follow are dropped. *)
Fixpoint dedup (afterdot : bool) (s : str) : str :=
  match s with
  | [] => []
  | c :: s' =>
      match ck c with
      | CDot => if afterdot then dedup true s' else c :: dedup true s'
      | CSp => if afterdot then dedup true s' else c :: dedup false s'
      | _ => c :: dedup false s'
      end
  end.

(** The spaces before a full stop are dropped and one is put after it;
    [pending] counts the spaces read and not yet written. *)
Fixpoint pad (pending : nat) (s : str) : str :=
  match s with
  | [] => repeat " "%char pending
  | c :: s' =>
      match ck c with
      | CSp => pad (S pending) s'
      | CDot => "."%char :: " "%char :: pad O s'
      | _ => repeat " "%char pending ++ c :: pad O s'
      end
  end.

Definition starts_gt (s : str) : Prop :=
  match s with
  | c :: _ => c = ">"%char
  | [] => False
  end.

(** No substring has the shape of a tag, [<] then one or more characters
    other than [>] then [>]. *)
Fixpoint tagfree (s : str) : Prop :=
  match s with
  | [] => True
  | c :: v => (c = "<"%char -> starts_gt v \/ ~ In ">"%char v) /\ tagfree v
  end.

(** The shapes of the text between the steps, as automata over the class
    of the last character read. *)
Inductive kind : Type := KStart | KDot | KDotSp | KSp | KOther.

Definition kind_eqb (a b : kind) : bool :=
  match a, b with
  | KStart, KStart | KDot, KDot | KDotSp, KDotSp | KSp, KSp | KOther, KOther => true
  | _, _ => false
  end.

Fixpoint accepts (step : kind -> cclass -> option kind) (final : kind) (k : kind) (s : str) : bool :=
  match s with
  | [] => kind_eqb k final
  | c :: s' =>
      match step k (ck c) with
      | Some k' => accepts step final k' s'
      | None => false
      end
  end.

(** Before the terminators are deduplicated: single spaces only, none at
    the start, a full stop at the end. *)
Definition pre_step (k : kind) (c : cclass) : option kind :=
  match c with
  | CWs => None
  | CSp => match k with KDot | KOther => Some KSp | _ => None end
  | CDot => Some KDot
  | COther => Some KOther
  end.

(** After the deduplication: moreover nothing but a word character
    follows a full stop. *)
Definition mid_step (k : kind) (c : cclass) : option kind :=
  match c with
  | CWs => None
  | CSp => match k with KOther => Some KSp | _ => None end
  | CDot => match k with KDot => None | _ => Some KDot end
  | COther => Some KOther
  end.

(** The normal form: a full stop is followed by one space and preceded by
    none, a space is followed by a word character. *)
Definition norm_step (k : kind) (c : cclass) : option kind :=
  match c with
  | CWs => None
  | CSp => match k with KOther => Some KSp | KDot => Some KDotSp | _ => None end
  | CDot => match k with KStart | KOther => Some KDot | _ => None end
  | COther => match k with KDot => None | _ => Some KOther end
  end.

Definition pre : kind -> str -> bool := accepts pre_step KDot.
Definition mid : kind -> str -> bool := accepts mid_step KDot.
Definition normT : kind -> str -> bool := accepts norm_step KDotSp.
Definition norm : kind -> str -> bool := accepts norm_step KDot.

(** A character that survives the punctuation steps unchanged. *)
Definition plain (c : ascii) : bool := negb (one_of ",:;()-!?" c).

(** Neither [<] nor [>]. *)
Definition nb (c : ascii) : bool := negb (one_of "<>" c).

(** Every character class of [r] lies inside [q]. *)
Fixpoint within (q : ascii -> bool) (r : regex) : Prop :=
  match r with
  | Chr p | Star p | Back1 p => forall c, p c = true -> q c = true
  | Bol | Eol | Eps => True
  | Seq r1 r2 | Alt r1 r2 => within q r1 /\ within q r2
  end.

(** Every match of [r] is at least one character long. *)
Fixpoint nonnull (r : regex) : bool :=
  match r with
  | Chr _ | Back1 _ => true
  | Bol | Eol | Eps | Star _ => false
  | Seq r1 r2 => (nonnull r1 || nonnull r2)%bool
  | Alt r1 r2 => (nonnull r1 && nonnull r2)%bool
  end.

(** ** Notions for the further properties *)

(** A character the steps of [clean_text] after the tags may change or
    drop: white space, [, : ; ( ) -] and the terminators. *)
Definition separator (c : ascii) : bool := (ws c || one_of ",:;()-.!?" c)%bool.

(** Any other character. *)
Definition word_char (c : ascii) : bool := negb (separator c).

(** [A-Za-z] *)
Definition ascii_letter (c : ascii) : bool := (between "A" "Z" c || between "a" "z" c)%bool.

(** Every match of [r] contains a character of class [q]. *)
Fixpoint must (q : ascii -> bool) (r : regex) : Prop :=
  match r with
  | Chr p | Back1 p => forall c, p c = true -> q c = true
  | Bol | Eol | Eps | Star _ => False
  | Seq r1 r2 => must q r1 \/ must q r2
  | Alt r1 r2 => must q r1 /\ must q r2
  end.

(** The words [average_syllables_per_word] and [words_with_three_syllables]
    loop over. *)
Definition tokens (strText : str) : list str := split (L " ") (clean_text strText).

(** No [^] in the pattern. *)
Fixpoint no_bol (r : regex) : bool :=
  match r with
  | Bol => false
  | Seq r1 r2 | Alt r1 r2 => (no_bol r1 && no_bol r2)%bool
  | _ => true
  end.

(** The pattern ends in [$]. *)
Fixpoint to_end (r : regex) : bool :=
  match r with
  | Eol => true
  | Seq _ r2 => to_end r2
  | Alt r1 r2 => (to_end r1 && to_end r2)%bool
  | _ => false
  end.

(** Whether a value is a number. *)
Definition is_num (v : jsval) : bool :=
  match v with VNum _ => true | _ => false end.

(** * Properties *)

Unset Implicit Arguments.

(** ** syllable_count on particular words *)

(** C1: the clamp only catches a count of exactly 0, so a word on which
    the subtractive patterns outnumber the nuclei keeps a negative count:
    [syllable_count("rved")] is -1, and [syllable_count("constructor")] is
    not a number at all. *)
Theorem syllable_count_below_one :
  syllable_count (L "rved") = VNum (-1) /\
  syllable_count (L "constructor") = VObj "constructor".
Proof. split; vm_compute; reflexivity. Qed.

(** C2 (as stated, refuted): [syllable_count("lion")] is not 2. *)
Lemma syllable_count_lion_not_2 : syllable_count (L "lion") <> VNum 2.
Proof. vm_compute. discriminate. Qed.

(** C2 (amended): [syllable_count("lion")] is exactly 1: one vowel group,
    one off for [/ion/], one on for [/io/]. *)
Theorem syllable_count_lion : syllable_count (L "lion") = VNum 1.
Proof. vm_compute. reflexivity. Qed.

(** C4: only the first [</p>] becomes a full stop; the other two are
    removed with the tags, and the text counts two sentences, not three. *)
Theorem closing_tags_first_only :
  clean_text (L "a</p>b</p>c</p>") = L "a. bc." /\
  sentence_count (L "a</p>b</p>c</p>") = Returns 2%Z.
Proof. split; vm_compute; reflexivity. Qed.

(** C5: a trailing full stop changes the count: it hides the word from
    the table of exceptions and from the suffix patterns. *)
Theorem trailing_terminator_changes_count :
  syllable_count (L "simile") = VNum 3 /\ syllable_count (L "simile.") = VNum 2 /\
  syllable_count (L "careful") = VNum 2 /\ syllable_count (L "careful.") = VNum 3.
Proof. repeat split; vm_compute; reflexivity. Qed.

(** C6: the flag is overwritten before it is read, so neither function
    depends on it. *)
Theorem count_proper_nouns_inert (t : str) (f1 f2 : option bool) :
  words_with_three_syllables t f1 = words_with_three_syllables t f2 /\
  percentage_words_with_three_syllables t f1 = percentage_words_with_three_syllables t f2.
Proof. split; reflexivity. Qed.

(** ** The matcher *)

Lemma firstn_plus {A : Type} (a b : nat) (l : list A) :
  firstn (a + b) l = firstn a l ++ firstn b (skipn a l).
Proof.
  revert l; induction a as [|a IH]; intros l; simpl; [reflexivity|].
  destruct l as [|x l]; simpl.
  - now rewrite firstn_nil.
  - now rewrite IH.
Qed.

Lemma star_lens_bound p s n : In n (star_lens p s) -> n <= run_len p s.
Proof.
  revert n; induction s as [|c s IH]; intros n; simpl.
  - intros [<-|[]]; lia.
  - destruct (p c); simpl.
    + rewrite in_app_iff, in_map_iff. intros [(m & <- & Hm)|[<-|[]]]; [|lia].
      apply IH in Hm; lia.
    + intros [<-|[]]; lia.
Qed.

Lemma star_lens_hd p s : exists l, star_lens p s = run_len p s :: l.
Proof.
  induction s as [|c s [l IH]]; simpl; [now exists []|].
  destruct (p c); [|now exists []].
  rewrite IH; simpl. now eexists.
Qed.

Lemma run_len_le p s : run_len p s <= List.length s.
Proof. induction s as [|c s IH]; simpl; [lia|]. destruct (p c); simpl; lia. Qed.

Lemma run_len_forall p s n :
  n <= run_len p s -> Forall (fun c => p c = true) (firstn n s).
Proof.
  revert n; induction s as [|c s IH]; intros n Hn; simpl in *.
  - rewrite firstn_nil; constructor.
  - destruct n as [|n]; [constructor|]. simpl.
    destruct (p c) eqn:E; [|lia]. constructor; [assumption|]. apply IH; lia.
Qed.

Lemma mt_bound r : forall b s n, In n (mt r b s) -> n <= List.length s.
Proof.
  induction r as [p| | | |r1 IH1 r2 IH2|r1 IH1 r2 IH2|p|p]; intros b s n; simpl.
  - destruct s as [|c s]; [intros []|]. destruct (p c); [|intros []].
    intros [<-|[]]; simpl; lia.
  - destruct b; [|intros []]. intros [<-|[]]; lia.
  - destruct s; [|intros []]. intros [<-|[]]; simpl; lia.
  - intros [<-|[]]; lia.
  - rewrite in_flat_map. intros (n1 & H1 & H). rewrite in_map_iff in H.
    destruct H as (n2 & <- & H2). apply IH1 in H1. apply IH2 in H2.
    rewrite length_skipn in H2. lia.
  - rewrite in_app_iff. intros [H|H]; eauto.
  - intros H. apply star_lens_bound in H. pose proof (run_len_le p s). lia.
  - destruct s as [|c [|d s]]; try (intros []).
    destruct (p c && Ascii.eqb c d)%bool; [|intros []].
    intros [<-|[]]; simpl; lia.
Qed.

Lemma mt_within q r :
  within q r ->
  forall b s n, In n (mt r b s) -> Forall (fun c => q c = true) (firstn n s).
Proof.
  induction r as [p| | | |r1 IH1 r2 IH2|r1 IH1 r2 IH2|p|p]; simpl; intros W b s n.
  - destruct s as [|c s]; [intros []|]. destruct (p c) eqn:E; [|intros []].
    intros [<-|[]]; simpl. constructor; auto.
  - destruct b; [|intros []]. intros [<-|[]]; constructor.
  - destruct s; [|intros []]. intros [<-|[]]; constructor.
  - intros [<-|[]]; constructor.
  - destruct W as [W1 W2]. rewrite in_flat_map. intros (n1 & H1 & H).
    rewrite in_map_iff in H. destruct H as (n2 & <- & H2).
    rewrite firstn_plus. apply Forall_app; split; eauto.
  - destruct W as [W1 W2]. rewrite in_app_iff. intros [H|H]; eauto.
  - intros H. apply star_lens_bound in H. apply run_len_forall with (p := p) in H.
    eapply Forall_impl; [|exact H]. auto.
  - destruct s as [|c [|d s]]; try (intros []).
    destruct (p c) eqn:E; simpl; [|intros []].
    destruct (Ascii.eqb_spec c d) as [<-|]; [|intros []].
    intros [<-|[]]; simpl. repeat constructor; auto.
Qed.

Lemma mt_nonnull r :
  nonnull r = true -> forall b s n, In n (mt r b s) -> 0 < n.
Proof.
  induction r as [p| | | |r1 IH1 r2 IH2|r1 IH1 r2 IH2|p|p]; simpl; intros N b s n;
    try discriminate.
  - destruct s as [|c s]; [intros []|]. destruct (p c); [|intros []].
    intros [<-|[]]; lia.
  - rewrite in_flat_map. intros (n1 & H1 & H). rewrite in_map_iff in H.
    destruct H as (n2 & <- & H2). apply orb_true_iff in N. destruct N as [N|N].
    + specialize (IH1 N _ _ _ H1). lia.
    + specialize (IH2 N _ _ _ H2). lia.
  - apply andb_true_iff in N. destruct N as [N1 N2].
    rewrite in_app_iff. intros [H|H]; eauto.
  - destruct s as [|c [|d s]]; try (intros []).
    destruct (p c && Ascii.eqb c d)%bool; [|intros []].
    intros [<-|[]]; lia.
Qed.

Lemma exec_in r b s n : exec r b s = Some n -> In n (mt r b s).
Proof.
  unfold exec. destruct (mt r b s); simpl; [discriminate|].
  intros [= ->]. now left.
Qed.

Lemma exec_bound r b s n : exec r b s = Some n -> n <= List.length s.
Proof. intros H. eapply mt_bound, exec_in, H. Qed.

Lemma exec_nil r b s : mt r b s = [] -> exec r b s = None.
Proof. unfold exec. now intros ->. Qed.

(** ** Scanning replacements *)

Section Scan.

Variables (r : regex) (rep : str).

Lemma replace_from_skip :
  forall k s b, k <= List.length s ->
    replace_from r rep b k s = replace_from r rep (b && (k =? 0)) 0 (skipn k s).
Proof.
  induction k as [|k IH]; intros s b Hk.
  - now rewrite andb_true_r.
  - destruct s as [|c s]; simpl in Hk; [lia|].
    rewrite andb_false_r. simpl skipn.
    change (replace_from r rep b (S k) (c :: s)) with (replace_from r rep false k s).
    rewrite IH by lia. reflexivity.
Qed.

(** One step of the scan, whatever the length of the match. *)
Lemma replace_step b s :
  replace_from r rep b 0 s =
  match exec r b s with
  | Some (S k) => rep ++ replace_from r rep false 0 (skipn (S k) s)
  | Some O => rep ++ match s with [] => [] | c :: s' => c :: replace_from r rep false 0 s' end
  | None => match s with [] => [] | c :: s' => c :: replace_from r rep false 0 s' end
  end.
Proof.
  destruct s as [|c s]; simpl; destruct (exec r b _) as [[|k]|] eqn:E; try reflexivity.
  - apply exec_bound in E; simpl in E; lia.
  - apply exec_bound in E; simpl in E.
    rewrite (replace_from_skip k s false) by lia. reflexivity.
Qed.

(** The scan invents no character. *)
Lemma replace_from_in c :
  forall s b k, In c (replace_from r rep b k s) -> In c s \/ In c rep.
Proof.
  induction s as [|a s IH]; intros b k; destruct k as [|k]; simpl.
  - destruct (exec r b []) as [[|n]|]; rewrite ?app_nil_r; auto.
  - auto.
  - destruct (exec r b (a :: s)) as [[|n]|]; simpl; rewrite ?in_app_iff; simpl.
    + intros [H|[H|H]]; auto. apply IH in H. tauto.
    + intros [H|H]; auto. apply IH in H. tauto.
    + intros [H|H]; auto. apply IH in H. tauto.
  - intros H. apply IH in H. tauto.
Qed.

Lemma replace_g_in c s : In c (replace_g r rep s) -> In c s \/ In c rep.
Proof. apply replace_from_in. Qed.

Lemma replace_g_forall (q : ascii -> Prop) s :
  Forall q s -> Forall q rep -> Forall q (replace_g r rep s).
Proof.
  rewrite !Forall_forall. intros Hs Hr c H.
  apply replace_g_in in H. destruct H; auto.
Qed.

(** A replacement that never finds a match leaves the text alone. *)
Lemma replace_noop (P : str -> Prop) :
  (forall c u, P (c :: u) -> P u) ->
  (forall u, P u -> exec r false u = None) ->
  forall s b, P s -> exec r b s = None -> replace_from r rep b 0 s = s.
Proof.
  intros Htl Hno. induction s as [|c s IH]; intros b Ps E; rewrite replace_step, E.
  - reflexivity.
  - f_equal. apply IH; eauto.
Qed.

End Scan.

Lemma exec_chr p b s :
  exec (Chr p) b s = match s with c :: _ => if p c then Some 1 else None | [] => None end.
Proof. unfold exec; simpl. destruct s as [|c s]; [reflexivity|]. now destruct (p c). Qed.

Lemma replace_chr p rep :
  forall s b, replace_from (Chr p) rep b 0 s = flat_map (fun c => if p c then rep else [c]) s.
Proof.
  induction s as [|c s IH]; intros b; rewrite replace_step, exec_chr; [reflexivity|].
  cbn [flat_map skipn]. destruct (p c); now rewrite IH.
Qed.

Lemma mt_plus p b c s :
  mt (Plus p) b (c :: s) = if p c then map S (star_lens p s) else [].
Proof.
  unfold Plus; simpl. destruct (p c); simpl; [|reflexivity].
  rewrite app_nil_r. apply map_ext. reflexivity.
Qed.

Lemma exec_plus p b s :
  exec (Plus p) b s =
  match s with
  | c :: s' => if p c then Some (S (run_len p s')) else None
  | [] => None
  end.
Proof.
  destruct s as [|c s]; [reflexivity|]. unfold exec. rewrite mt_plus.
  destruct (p c); [|reflexivity].
  destruct (star_lens_hd p s) as [l ->]. reflexivity.
Qed.

Lemma replace_plus p rep :
  forall s b,
    replace_from (Plus p) rep b 0 s = squeeze p rep false s /\
    replace_from (Plus p) rep b (run_len p s) s = squeeze p rep true s.
Proof.
  induction s as [|c s IH]; intros b.
  - split; reflexivity.
  - destruct (IH false) as [IH1 IH2].
    assert (H0 : replace_from (Plus p) rep b 0 (c :: s) =
                 if p c then rep ++ squeeze p rep true s else c :: squeeze p rep false s).
    { rewrite replace_step, exec_plus. destruct (p c); [|now rewrite IH1].
      cbn [skipn]. rewrite <- IH2.
      rewrite (replace_from_skip _ _ (run_len p s) s false) by apply run_len_le.
      reflexivity. }
    cbn [run_len squeeze]. destruct (p c) eqn:E; split; auto.
Qed.

Lemma replace_g_plus p rep s : replace_g (Plus p) rep s = squeeze p rep false s.
Proof. apply replace_plus. Qed.

(** ** Characters *)

(** Facts about a single character are settled on the 256 of them. *)
Ltac by_chars :=
  let c := fresh "c" in
  intros c; destruct c as [[] [] [] [] [] [] [] []]; vm_compute;
  try reflexivity; try (intros; discriminate); try (intros; reflexivity); try tauto.

Lemma ck_dot c : ck c = CDot -> c = "."%char.
Proof. revert c. by_chars. Qed.

Lemma ck_sp c : ck c = CSp -> c = " "%char.
Proof. revert c. by_chars. Qed.

Lemma dotsp_ck c :
  one_of ". " c = match ck c with CDot | CSp => true | _ => false end.
Proof. revert c. by_chars. Qed.

Lemma sp_ck c : chr " " c = match ck c with CSp => true | _ => false end.
Proof. revert c. by_chars. Qed.

Lemma isdot_ck c : chr "." c = match ck c with CDot => true | _ => false end.
Proof. revert c. by_chars. Qed.

Lemma ws_ck c : ws c = match ck c with CSp | CWs => true | _ => false end.
Proof. revert c. by_chars. Qed.

Lemma lf_ck c : chr LF c = true -> ck c = CWs.
Proof. revert c. by_chars. Qed.

Lemma cr_ck c : chr CR c = true -> ck c = CWs.
Proof. revert c. by_chars. Qed.

Lemma ck_lower c : ck (lower_char c) = ck c.
Proof. revert c. by_chars. Qed.

Lemma lower_idem c : lower_char (lower_char c) = lower_char c.
Proof. revert c. by_chars. Qed.

Lemma lower_not_upper c : is_upper (lower_char c) = false.
Proof. revert c. by_chars. Qed.

Lemma lower_plain c : plain (lower_char c) = plain c.
Proof. revert c. by_chars. Qed.

Lemma lower_lt c : lower_char c = "<"%char <-> c = "<"%char.
Proof. revert c. by_chars; split; intros; try reflexivity; discriminate. Qed.

Lemma lower_gt c : lower_char c = ">"%char <-> c = ">"%char.
Proof. revert c. by_chars; split; intros; try reflexivity; discriminate. Qed.

(** ** The regular expressions of [clean_text], one position at a time *)

Lemma flat_map_map_S {A : Type} (f : nat -> list A) (l : list nat) :
  flat_map f (map S l) = flat_map (fun n => f (S n)) l.
Proof. induction l as [|x l IH]; simpl; [reflexivity|]. now rewrite IH. Qed.

Lemma flat_map_nil {A B : Type} (f : A -> list B) (l : list A) :
  (forall x, In x l -> f x = []) -> flat_map f l = [].
Proof.
  induction l as [|x l IH]; intros H; simpl; [reflexivity|].
  rewrite H by now left. apply IH. intros y Hy. apply H. now right.
Qed.

Lemma after_run_cons p c s :
  after_run p (c :: s) = if p c then after_run p s else Some c.
Proof. unfold after_run; simpl. now destruct (p c). Qed.

(** A greedy class star followed by one character outside the class has
    at most one way to match. *)
Lemma flat_star p q (F : nat -> bool) :
  (forall c, q c = true -> p c = false) ->
  forall s,
    flat_map (fun n => map (Nat.add n) (mt (Chr q) (F n) (skipn n s))) (star_lens p s) =
    match after_run p s with
    | Some d => if q d then [run_len p s + 1] else []
    | None => []
    end.
Proof.
  intros Hq s. revert F. induction s as [|c s IH]; intros F.
  - reflexivity.
  - rewrite after_run_cons. cbn [star_lens run_len]. destruct (p c) eqn:E.
    + rewrite flat_map_app, flat_map_map_S. cbn [flat_map skipn mt].
      assert (Hc : q c = false).
      { destruct (q c) eqn:Q; [|reflexivity]. apply Hq in Q. congruence. }
      rewrite Hc. cbn [map app]. rewrite app_nil_r.
      specialize (IH (fun n => F (S n))).
      transitivity (map S (flat_map
        (fun n => map (Nat.add n) (mt (Chr q) (F (S n)) (skipn n s))) (star_lens p s))).
      * clear IH. induction (star_lens p s) as [|x l IHl]; [reflexivity|].
        cbn [flat_map]. rewrite map_app, IHl, map_map. reflexivity.
      * rewrite IH. destruct (after_run p s) as [d|]; [|reflexivity].
        destruct (q d); reflexivity.
    + cbn [flat_map skipn mt app]. destruct (q c); reflexivity.
Qed.

Lemma mt_star_chr p q b s :
  (forall c, q c = true -> p c = false) ->
  mt (Star p ;; Chr q) b s =
  match after_run p s with
  | Some d => if q d then [run_len p s + 1] else []
  | None => []
  end.
Proof. intros Hq. exact (flat_star p q (fun n => (b && (n =? 0))%bool) Hq s). Qed.

Lemma after_run_some p s d : after_run p s = Some d -> p d = false /\ In d s.
Proof.
  induction s as [|c s IH]; [discriminate|]. rewrite after_run_cons.
  destruct (p c) eqn:E.
  - intros H. apply IH in H. simpl; tauto.
  - intros [= <-]. simpl; auto.
Qed.

Lemma after_run_in p s d : In d s -> p d = false -> after_run p s <> None.
Proof.
  induction s as [|c s IH]; [intros []|]. rewrite after_run_cons.
  intros [->|H] Hd.
  - now rewrite Hd.
  - destruct (p c); [auto|discriminate].
Qed.

(** [/([\.])[\. ]+/] *)
Lemma exec_dup b c s :
  exec re_dup b (c :: s) =
  if (chr "." c && (0 <? run_len (one_of ". ") s))%bool
  then Some (S (run_len (one_of ". ") s)) else None.
Proof.
  unfold exec, re_dup, Lit. cbn [mt]. destruct (chr "." c); cbn [flat_map andb]; [|reflexivity].
  rewrite app_nil_r. cbn [skipn]. destruct s as [|d s]; [reflexivity|].
  rewrite mt_plus. cbn [run_len]. destruct (one_of ". " d); [|reflexivity].
  destruct (star_lens_hd (one_of ". ") s) as [l ->]. reflexivity.
Qed.

Lemma dedup_no_run s : run_len (one_of ". ") s = 0 -> dedup true s = dedup false s.
Proof.
  destruct s as [|c s]; [reflexivity|]. simpl. rewrite dotsp_ck.
  destruct (ck c); try discriminate; reflexivity.
Qed.

Lemma replace_dup :
  forall s b,
    replace_from re_dup (L ".") b 0 s = dedup false s /\
    replace_from re_dup (L ".") b (run_len (one_of ". ") s) s = dedup true s.
Proof.
  induction s as [|c s IH]; intros b.
  - split; reflexivity.
  - destruct (IH false) as [IH1 IH2].
    assert (H0 : replace_from re_dup (L ".") b 0 (c :: s) = dedup false (c :: s)).
    { rewrite replace_step, exec_dup, isdot_ck. cbn [dedup].
      destruct (ck c) eqn:K; cbn [andb]; try now rewrite IH1.
      apply ck_dot in K. subst c.
      destruct (0 <? run_len (one_of ". ") s) eqn:R.
      - cbn [skipn]. rewrite <- IH2.
        rewrite (replace_from_skip _ _ (run_len (one_of ". ") s) s false) by apply run_len_le.
        reflexivity.
      - rewrite IH1. apply Nat.ltb_ge in R.
        rewrite dedup_no_run by lia. reflexivity. }
    split; [exact H0|]. cbn [run_len]. destruct (one_of ". " c) eqn:E.
    + change (replace_from re_dup (L ".") b (S (run_len (one_of ". ") s)) (c :: s))
        with (replace_from re_dup (L ".") false (run_len (one_of ". ") s) s).
      rewrite IH2. cbn [dedup]. rewrite dotsp_ck in E.
      destruct (ck c); try discriminate; reflexivity.
    + rewrite H0. symmetry. apply dedup_no_run. cbn [run_len]. now rewrite E.
Qed.

Lemma replace_g_dup s : replace_g re_dup (L ".") s = dedup false s.
Proof. apply replace_dup. Qed.

(** [/[ ]*([\.])/] *)

Lemma exec_pad b s :
  exec re_pad b s = if dot_next s then Some (run_len (chr " ") s + 1) else None.
Proof.
  unfold exec, re_pad, Lit, dot_next. rewrite mt_star_chr.
  - destruct (after_run (chr " ") s) as [d|]; [|reflexivity].
    destruct (chr "." d); reflexivity.
  - by_chars.
Qed.

Lemma dot_next_cons c s :
  dot_next (c :: s) =
  match ck c with CSp => dot_next s | CDot => true | _ => false end.
Proof.
  unfold dot_next. rewrite after_run_cons, sp_ck.
  destruct (ck c) eqn:K; try reflexivity; rewrite isdot_ck, K; reflexivity.
Qed.

Lemma pad_pending n s :
  pad n s = if dot_next s then pad 0 s else repeat " "%char n ++ pad 0 s.
Proof.
  revert n; induction s as [|c s IH]; intros n.
  - simpl. now rewrite app_nil_r.
  - rewrite dot_next_cons. cbn [pad]. destruct (ck c); try reflexivity.
    rewrite (IH (S n)), (IH 1). destruct (dot_next s); [reflexivity|].
    cbn [repeat app]. rewrite app_comm_cons, repeat_cons, <- app_assoc. reflexivity.
Qed.

Lemma replace_pad : forall s b, replace_from re_pad (L ". ") b 0 s = pad 0 s.
Proof.
  induction s as [|c s IH]; intros b.
  - reflexivity.
  - rewrite replace_step, exec_pad, dot_next_cons. cbn [run_len]. rewrite sp_ck.
    cbn [pad]. destruct (ck c) eqn:K.
    + cbn [Nat.add skipn repeat app]. now rewrite IH.
    + apply ck_sp in K. subst c. rewrite (pad_pending 1 s).
      destruct (dot_next s) eqn:D.
      * rewrite <- (IH false). rewrite (replace_step _ _ false s), exec_pad, D.
        replace (S (run_len (chr " ") s) + 1) with (S (run_len (chr " ") s + 1)) by lia.
        replace (run_len (chr " ") s + 1) with (S (run_len (chr " ") s)) by lia.
        reflexivity.
      * now rewrite IH.
    + now rewrite IH.
    + now rewrite IH.
Qed.

Lemma replace_g_pad s : replace_g re_pad (L ". ") s = pad 0 s.
Proof. apply replace_pad. Qed.

(** [/(<([^>]+)>)/] *)
Lemma flat_map_shift (f : nat -> list nat) (l : list nat) :
  flat_map (fun n => map (Nat.add (S n)) (f n)) l =
  map S (flat_map (fun n => map (Nat.add n) (f n)) l).
Proof.
  induction l as [|x l IH]; [reflexivity|].
  cbn [flat_map]. rewrite map_app, IH, map_map. reflexivity.
Qed.

Lemma not_gt c : none_of ">" c = false <-> c = ">"%char.
Proof. revert c. by_chars; split; intros; try reflexivity; discriminate. Qed.

Lemma is_lt c : chr "<" c = true <-> c = "<"%char.
Proof. revert c. by_chars; split; intros; try reflexivity; discriminate. Qed.

Lemma mt_tags b c s :
  mt objTags b (c :: s) =
  if (chr "<" c && opens s)%bool then [S (S (run_len (none_of ">") (tl s) + 1))] else [].
Proof.
  unfold objTags, Lit. cbn [mt]. destruct (chr "<" c); cbn [flat_map andb]; [|reflexivity].
  rewrite app_nil_r. cbn [skipn].
  change (fun n : nat => map (Nat.add n)
            (mt (Chr (chr ">")) (b && (1 =? 0) && (n =? 0)) (skipn n s)))
    with (fun n : nat => map (Nat.add n)
            ((fun m => mt (Chr (chr ">")) (b && (1 =? 0) && (m =? 0)) (skipn m s)) n)).
  destruct s as [|d v]; [reflexivity|].
  rewrite mt_plus. cbn [opens tl]. destruct (none_of ">" d); cbn [andb]; [|reflexivity].
  rewrite flat_map_map_S. cbn [skipn].
  rewrite (flat_map_shift (fun n => mt (Chr (chr ">")) (b && (1 =? 0) && (S n =? 0)) (skipn n v))).
  rewrite (flat_star (none_of ">") (chr ">")
             (fun n => (b && (1 =? 0) && (S n =? 0))%bool)).
  - destruct (after_run (none_of ">") v) as [e|] eqn:A; [|reflexivity].
    apply after_run_some in A. destruct A as [A _]. apply not_gt in A. subst e.
    reflexivity.
  - by_chars.
Qed.

Lemma exec_tags b s :
  exec objTags b s =
  match s with
  | c :: v =>
      if (chr "<" c && opens v)%bool then Some (S (S (run_len (none_of ">") (tl v) + 1)))
      else None
  | [] => None
  end.
Proof.
  destruct s as [|c v]; [reflexivity|]. unfold exec. rewrite mt_tags.
  destruct (chr "<" c && opens v)%bool; reflexivity.
Qed.

Lemma opens_false v : opens v = false <-> v = [] \/ starts_gt v \/ ~ In ">"%char v.
Proof.
  destruct v as [|d v]; simpl; [tauto|].
  destruct (none_of ">" d) eqn:D; simpl.
  - assert (Hd : d <> ">"%char) by (intros ->; discriminate).
    destruct (after_run (none_of ">") v) as [e|] eqn:A; split.
    + discriminate.
    + intros [H|[H|H]]; [discriminate|congruence|]. exfalso. apply H. right.
      apply after_run_some in A. destruct A as [A1 A2]. apply not_gt in A1. now subst e.
    + intros _. right; right. intros [H|H]; [congruence|].
      eapply after_run_in; eauto. reflexivity.
    + reflexivity.
  - apply not_gt in D. subst d. split; auto.
Qed.

Lemma tagfree_tl c s : tagfree (c :: s) -> tagfree s.
Proof. simpl; tauto. Qed.

Lemma tagfree_exec b s : tagfree s -> exec objTags b s = None.
Proof.
  rewrite exec_tags. destruct s as [|c v]; [reflexivity|]. intros [H _].
  destruct (chr "<" c) eqn:C; [|reflexivity]. apply is_lt in C. cbn [andb].
  destruct (opens v) eqn:O; [|reflexivity]. exfalso.
  assert (O' : opens v <> false) by now rewrite O. apply O'. apply opens_false.
  destruct (H C); auto.
Qed.

(** Stripping the tags is the identity on a text without tags. *)
Lemma strip_tags_noop s : tagfree s -> replace_g objTags [] s = s.
Proof.
  intros H. unfold replace_g. apply replace_noop with (P := tagfree); auto.
  - apply tagfree_tl.
  - intros u. apply tagfree_exec.
  - now apply tagfree_exec.
Qed.

Lemma tagfree_app u v : ~ In "<"%char u -> tagfree v -> tagfree (u ++ v).
Proof.
  induction u as [|c u IH]; simpl; [auto|]. intros H Hv. split.
  - intros ->. tauto.
  - apply IH; tauto.
Qed.

(** What is left once the tags are stripped has no tag. *)
Lemma strip_tags_tagfree s : tagfree (replace_g objTags [] s).
Proof.
  unfold replace_g. generalize true as b. remember (List.length s) as n eqn:Hn.
  revert s Hn. induction n as [n IH] using lt_wf_ind. intros s Hn b.
  rewrite replace_step. destruct (exec objTags b s) as [[|k]|] eqn:E.
  - rewrite exec_tags in E. destruct s as [|c v]; [discriminate|].
    destruct (chr "<" c && opens v)%bool; discriminate.
  - cbn [app]. pose proof (exec_bound _ _ _ _ E) as Hb.
    eapply (IH (List.length (skipn (S k) s))); [|reflexivity].
    rewrite length_skipn. lia.
  - destruct s as [|c v]; [exact I|]. simpl in Hn.
    assert (IHv : tagfree (replace_from objTags [] false 0 v))
      by (eapply (IH (List.length v)); [lia|reflexivity]).
    split; [|exact IHv]. intros ->.
    rewrite exec_tags in E. cbn [andb chr] in E.
    replace (Ascii.eqb "<" "<") with true in E by reflexivity. cbn [andb] in E.
    destruct (opens v) eqn:O; [discriminate|]. apply opens_false in O.
    destruct O as [->|[O|O]].
    + right. intros [].
    + left. destruct v as [|d v]; [destruct O|]. simpl in O. subst d.
      rewrite replace_step, exec_tags. reflexivity.
    + right. intros H. apply replace_from_in in H. destruct H as [H|[]]. auto.
Qed.

(** [/(?:(?:^|\n)\s+|\s+(?:$|\n))/] *)
Lemma ws_lf c : ws c = false -> chr LF c = false.
Proof. revert c. by_chars. Qed.

Lemma exec_trim_word b c s : ws c = false -> exec re_trim b (c :: s) = None.
Proof.
  intros W. apply exec_nil. unfold re_trim, Lit. cbn [mt].
  rewrite (ws_lf c W).
  destruct b; cbn [app flat_map skipn]; rewrite ?(mt_plus ws), ?W; reflexivity.
Qed.

Lemma exec_trim_start c s :
  ws c = true -> exec re_trim true (c :: s) = Some (S (run_len ws s)).
Proof.
  intros W. unfold exec, re_trim, Lit. cbn [mt app flat_map andb Nat.eqb skipn].
  rewrite (mt_plus ws), W. destruct (star_lens_hd ws s) as [l ->]. reflexivity.
Qed.

Lemma exec_trim_inner c d s :
  ck c = CSp -> ws d = false -> exec re_trim false (c :: d :: s) = None.
Proof.
  intros K W. apply ck_sp in K. subst c. apply exec_nil.
  unfold re_trim, Lit. cbn [mt]. rewrite !(mt_plus ws).
  replace (ws " ") with true by reflexivity.
  replace (chr LF " ") with false by reflexivity.
  cbn [star_lens]. rewrite W. cbn [app flat_map map skipn].
  now rewrite (ws_lf d W).
Qed.

Lemma exec_trim_nil b : exec re_trim b [] = None.
Proof. now destruct b. Qed.

(** After the first trim the text does not start with white space. *)
Lemma trim_head s :
  match replace_g re_trim [] s with
  | c :: _ => ws c = false
  | [] => True
  end.
Proof.
  assert (G : forall u, match u with c :: _ => ws c = false | [] => True end ->
                        match replace_from re_trim [] false 0 u with
                        | c :: _ => ws c = false
                        | [] => True
                        end).
  { intros [|c u]; [intros _; now rewrite replace_step, exec_trim_nil|].
    intros W. now rewrite replace_step, (exec_trim_word _ _ _ W). }
  unfold replace_g. destruct s as [|c s].
  - now rewrite replace_step, exec_trim_nil.
  - destruct (ws c) eqn:W.
    + rewrite replace_step, (exec_trim_start _ _ W). cbn [app skipn]. apply G.
      destruct (skipn (run_len ws s) s) as [|d u] eqn:S; [exact I|].
      assert (A : after_run ws s = Some d) by (unfold after_run; now rewrite S).
      now apply after_run_some in A.
    + now rewrite replace_step, (exec_trim_word _ _ _ W).
Qed.

(** [/[ ]*(\n|\r\n|\r)[ ]*/] *)
Lemma no_odd_space_skipn n s : no_odd_space s -> no_odd_space (skipn n s).
Proof.
  revert s; induction n as [|n IH]; intros s H; [exact H|].
  destruct s as [|c s]; [exact H|]. simpl. apply IH. now inversion H.
Qed.

Lemma exec_newline_none b s : no_odd_space s -> exec re_newline b s = None.
Proof.
  intros H. apply exec_nil. unfold re_newline. cbn [mt].
  apply flat_map_nil. intros n _.
  pose proof (no_odd_space_skipn n s H) as Hn.
  destruct (skipn n s) as [|c u]; [reflexivity|].
  assert (Hl : chr LF c = false).
  { destruct (chr LF c) eqn:E; [|reflexivity]. apply lf_ck in E. inversion Hn; tauto. }
  assert (Hc : chr CR c = false).
  { destruct (chr CR c) eqn:E; [|reflexivity]. apply cr_ck in E. inversion Hn; tauto. }
  unfold Lit. cbn [mt]. rewrite Hl, Hc. reflexivity.
Qed.

Lemma newline_noop s : no_odd_space s -> replace_g re_newline (L " ") s = s.
Proof.
  intros H. unfold replace_g. apply replace_noop with (P := no_odd_space); auto.
  - intros c u Hc. now inversion Hc.
  - intros u. apply exec_newline_none.
  - now apply exec_newline_none.
Qed.

(** ** Replacements that cannot build a tag *)

Lemma tagfree_skipn n s : tagfree s -> tagfree (skipn n s).
Proof.
  revert s; induction n as [|n IH]; intros s H; [exact H|].
  destruct s as [|c s]; [exact H|]. simpl. apply IH. exact (proj2 H).
Qed.

Lemma replace_from_tagfree r rep :
  within nb r -> nonnull r = true -> Forall (fun c => nb c = true) rep ->
  forall s b k,
    k <= List.length s -> Forall (fun c => nb c = true) (firstn k s) ->
    tagfree (skipn k s) ->
    tagfree (replace_from r rep b k s) /\
    (k = 0 -> starts_gt s -> starts_gt (replace_from r rep b k s)).
Proof.
  intros W N R.
  assert (Rlt : ~ In "<"%char rep).
  { intros H. rewrite Forall_forall in R. apply R in H. discriminate. }
  assert (Rgt : ~ In ">"%char rep).
  { intros H. rewrite Forall_forall in R. apply R in H. discriminate. }
  induction s as [|c s IH]; intros b k Hk Hf Ht.
  - assert (k = 0) by (simpl in Hk; lia). subst k. simpl.
    destruct (exec r b []) as [n|] eqn:E.
    + pose proof (mt_nonnull r N _ _ _ (exec_in _ _ _ _ E)).
      pose proof (exec_bound _ _ _ _ E). simpl in *. lia.
    + split; [exact I|]. intros _ [].
  - destruct k as [|k].
    + cbn [skipn] in Ht. cbn [replace_from].
      destruct (exec r b (c :: s)) as [n|] eqn:E.
      * pose proof (mt_nonnull r N _ _ _ (exec_in _ _ _ _ E)) as Hn.
        pose proof (exec_bound _ _ _ _ E) as Hb.
        pose proof (mt_within nb r W _ _ _ (exec_in _ _ _ _ E)) as Hw.
        destruct n as [|n]; [lia|]. simpl in Hb. cbn [firstn] in Hw.
        inversion Hw as [|? ? Hc Hw']; subst.
        destruct (IH false n) as [IH1 _]; [lia|exact Hw'| |].
        { apply tagfree_skipn. exact (proj2 Ht). }
        split.
        -- now apply tagfree_app.
        -- intros _ G. simpl in G. subst c. discriminate.
      * destruct (IH false 0) as [IH1 IH2]; [lia|constructor|exact (proj2 Ht)|].
        split.
        -- split; [|exact IH1]. intros ->. destruct Ht as [[G|G] _]; [reflexivity| |].
           ++ left. now apply IH2.
           ++ right. intros H. apply replace_from_in in H. tauto.
        -- intros _ G. exact G.
    + cbn [replace_from]. cbn [skipn] in Ht. cbn [firstn] in Hf. simpl in Hk.
      destruct (IH false k) as [IH1 _]; [lia|now inversion Hf|exact Ht|].
      split; [exact IH1|discriminate].
Qed.

(** ** The shape of the text from step to step *)

Ltac shape K :=
  unfold pre, mid, norm, normT in *;
  repeat (progress
    (cbn [accepts dedup pad squeeze pre_step mid_step norm_step kind_eqb repeat app] in *;
     rewrite ?K in * )).

Lemma ck_lit_dot : ck "." = CDot.
Proof. reflexivity. Qed.

Lemma ck_lit_sp : ck " " = CSp.
Proof. reflexivity. Qed.

(** Squeezing the white space of a text that does not start with any,
    then adding the full stop. *)
Lemma squeeze_pre :
  forall y,
    pre KOther (squeeze ws (L " ") false y ++ L ".") = true /\
    pre KDot (squeeze ws (L " ") false y ++ L ".") = true /\
    pre KSp (squeeze ws (L " ") true y ++ L ".") = true /\
    (match y with c :: _ => ws c = false | [] => True end ->
     pre KStart (squeeze ws (L " ") false y ++ L ".") = true).
Proof.
  induction y as [|c y (IH1 & IH2 & IH3 & _)].
  - repeat split; reflexivity.
  - cbn [squeeze]. rewrite ws_ck. destruct (ck c) eqn:K; cbn [L list_ascii_of_string app];
      unfold pre in *; cbn [accepts]; rewrite ?K, ?ck_lit_sp; cbn [pre_step];
      repeat split; auto; discriminate.
Qed.

Lemma pre_no_odd_space : forall s k, pre k s = true -> no_odd_space s.
Proof.
  induction s as [|c s IH]; intros k H; [constructor|].
  unfold pre in H. cbn [accepts] in H.
  destruct (pre_step k (ck c)) as [k'|] eqn:E; [|discriminate].
  constructor; [|eapply IH; exact H].
  intros K. rewrite K in E. discriminate.
Qed.

(** Deduplication of the terminators. *)
Lemma dedup_mid :
  forall s,
    (pre KStart s = true -> mid KStart (dedup false s) = true) /\
    (pre KSp s = true -> mid KSp (dedup false s) = true) /\
    (pre KOther s = true -> mid KOther (dedup false s) = true) /\
    (pre KDot s = true -> mid KDot (dedup true s) = true) /\
    (pre KSp s = true -> mid KDot (dedup true s) = true).
Proof.
  induction s as [|c s (IH1 & IH2 & IH3 & IH4 & IH5)].
  - repeat split; intros H; try discriminate H; reflexivity.
  - destruct (ck c) eqn:K; shape K; repeat split; intros H; try discriminate H; auto.
Qed.

(** Padding of the terminators. *)
Lemma pad_norm :
  forall s,
    (mid KStart s = true -> normT KStart (pad 0 s) = true) /\
    (mid KOther s = true -> normT KOther (pad 0 s) = true) /\
    (mid KSp s = true -> normT KOther (pad 1 s) = true) /\
    (mid KDot s = true -> normT KDotSp (pad 0 s) = true).
Proof.
  induction s as [|c s (IH1 & IH2 & IH3 & IH4)].
  - repeat split; intros H; try discriminate H; reflexivity.
  - destruct (ck c) eqn:K; shape K; rewrite ?ck_lit_dot, ?ck_lit_sp; shape K;
      repeat split; intros H; try discriminate H; auto.
Qed.

(** A padded text is a normal text and one space. *)
Lemma normT_split :
  forall t k, normT k t = true ->
    (k = KDotSp /\ t = []) \/ exists o, t = o ++ [" "%char] /\ norm k o = true.
Proof.
  induction t as [|c t IH]; intros k H.
  - left. destruct k; try discriminate H. auto.
  - right. unfold normT in H. cbn [accepts] in H.
    destruct (norm_step k (ck c)) as [k'|] eqn:E; [|discriminate].
    destruct (IH k' H) as [[-> ->]|(o & -> & Ho)].
    + exists []. split.
      * destruct (ck c) eqn:K; destruct k; try discriminate E.
        apply ck_sp in K. now subst c.
      * destruct (ck c) eqn:K; destruct k; try discriminate E. reflexivity.
    + exists (c :: o). split; [reflexivity|].
      unfold norm. cbn [accepts]. now rewrite E.
Qed.

Lemma norm_cons c o k :
  norm k (c :: o) = true -> exists k', norm_step k (ck c) = Some k' /\ norm k' o = true.
Proof.
  unfold norm. cbn [accepts]. destruct (norm_step k (ck c)) as [k'|]; [|discriminate].
  eauto.
Qed.

Lemma ck_ws_false c : ck c = CDot \/ ck c = COther -> ws c = false.
Proof. rewrite ws_ck. intros [-> | ->]; reflexivity. Qed.

(** On a normal text, followed or not by one space, the trim removes that
    space and nothing else. *)
Lemma trim_norm (tail : str) :
  tail = [] \/ tail = [" "%char] ->
  forall o k b,
    norm k o = true -> (b = true -> k = KStart) ->
    replace_from re_trim [] b 0 (o ++ tail) = o.
Proof.
  intros Ht. induction o as [|c o IH]; intros k b H Hb.
  - assert (b = false).
    { destruct b; [|reflexivity]. rewrite Hb in H by reflexivity. discriminate H. }
    subst b. destruct Ht as [-> | ->]; reflexivity.
  - apply norm_cons in H. destruct H as (k' & E & H).
    assert (IH' : replace_from re_trim [] false 0 (o ++ tail) = o).
    { apply (IH k'); [exact H|discriminate]. }
    rewrite replace_step. cbn [app].
    destruct (ck c) eqn:K.
    + rewrite exec_trim_word by (apply ck_ws_false; auto). now rewrite IH'.
    + assert (b = false).
      { destruct b; [|reflexivity]. rewrite Hb in E by reflexivity. discriminate E. }
      subst b. destruct o as [|d o].
      * exfalso. destruct k; try discriminate E; injection E as <-; discriminate H.
      * apply norm_cons in H. destruct H as (k'' & E' & _). cbn [app] in *.
        rewrite exec_trim_inner; [now rewrite IH'|exact K|].
        apply ck_ws_false.
        destruct (ck d); destruct k; try discriminate E; injection E as <-;
          try discriminate E'; auto.
    + destruct k; discriminate E.
    + rewrite exec_trim_word by (apply ck_ws_false; auto). now rewrite IH'.
Qed.

(** Squeezing spaces is the identity on a normal text. *)
Lemma squeeze_norm p :
  (forall c, ck c = CSp -> p c = true) ->
  (forall c, ck c = CDot \/ ck c = COther -> p c = false) ->
  forall o k, norm k o = true ->
    squeeze p (L " ") false o = o /\
    (k = KSp \/ k = KDotSp -> squeeze p (L " ") true o = o).
Proof.
  intros Hs Hn. induction o as [|c o IH]; intros k H; [split; reflexivity|].
  apply norm_cons in H. destruct H as (k' & E & H). destruct (IH k' H) as [I1 I2].
  cbn [squeeze]. destruct (ck c) eqn:K.
  - rewrite Hn by auto. rewrite I1. split; reflexivity.
  - rewrite Hs by auto. split.
    + apply ck_sp in K. subst c.
      rewrite I2; [reflexivity|]. destruct k; try discriminate E; injection E as <-; auto.
    + intros [-> | ->]; discriminate E.
  - destruct k; discriminate E.
  - rewrite Hn by auto. rewrite I1. split; reflexivity.
Qed.

Lemma norm_dot_tl o :
  norm KDot o = true -> " "%char :: tl (o ++ L " ") = o ++ L " ".
Proof.
  destruct o as [|a o]; [reflexivity|]. intros H. apply norm_cons in H.
  destruct H as (k' & E & _). destruct (ck a) eqn:K; try discriminate E.
  apply ck_sp in K. now subst a.
Qed.

(** Deduplicating and padding a normal text that got one more full stop
    gives the text back, with a space after it. *)
Lemma dedup_pad_norm :
  forall o,
    (norm KStart o = true -> pad 0 (dedup false (o ++ L ".")) = o ++ L " ") /\
    (norm KOther o = true -> pad 0 (dedup false (o ++ L ".")) = o ++ L " ") /\
    (norm KSp o = true -> pad 1 (dedup false (o ++ L ".")) = " "%char :: o ++ L " ") /\
    (norm KDot o = true -> pad 0 (dedup true (o ++ L ".")) = tl (o ++ L " ")) /\
    (norm KDotSp o = true -> pad 0 (dedup true (o ++ L ".")) = o ++ L " ").
Proof.
  induction o as [|c o (IH1 & IH2 & IH3 & IH4 & IH5)].
  - repeat split; intros H; try discriminate H; reflexivity.
  - cbn [app]. destruct (ck c) eqn:K; shape K; rewrite ?K; shape K;
      repeat split; intros H; try discriminate H;
      try (apply ck_dot in K; subst c); try (apply ck_sp in K; subst c);
      cbn [tl]; rewrite ?IH1, ?IH2, ?IH3, ?IH4, ?IH5 by assumption; try reflexivity;
      f_equal; now apply norm_dot_tl.
Qed.

(** ** What each replacement of [clean_text] keeps *)

Lemma replace_g_tagfree r rep s :
  within nb r -> nonnull r = true -> Forall (fun c => nb c = true) rep ->
  tagfree s -> tagfree (replace_g r rep s).
Proof.
  intros W N R H. unfold replace_g.
  apply (replace_from_tagfree r rep W N R s true 0); [lia|constructor|exact H].
Qed.

Ltac blind := cbn; repeat split; by_chars.

Lemma within_punct : within nb re_punct. Proof. blind. Qed.
Lemma within_term : within nb re_term. Proof. blind. Qed.
Lemma within_trim : within nb re_trim. Proof. blind. Qed.
Lemma within_spaces : within nb re_spaces. Proof. blind. Qed.
Lemma within_dup : within nb re_dup. Proof. blind. Qed.
Lemma within_pad : within nb re_pad. Proof. blind. Qed.

Lemma tagfree_snoc u w :
  tagfree u -> ~ In "<"%char w -> ~ In ">"%char w -> tagfree (u ++ w).
Proof.
  intros Hu Hl Hg. induction u as [|c u IH].
  - apply tagfree_app with (v := []) in Hl; [|exact I]. now rewrite app_nil_r in Hl.
  - destruct Hu as [H Hu]. split; [|now apply IH].
    intros C. destruct (H C) as [G|G].
    + left. destruct u; [destruct G|exact G].
    + right. rewrite in_app_iff. tauto.
Qed.

Lemma tagfree_lower s : tagfree s -> tagfree (toLowerCase s).
Proof.
  induction s as [|c s IH]; [auto|]. intros [H Hs]. split; [|now apply IH].
  intros C. apply (proj1 (lower_lt c)) in C. destruct (H C) as [G|G].
  - left. destruct s as [|d s]; [destruct G|]. simpl in *. subst d. reflexivity.
  - right. unfold toLowerCase. rewrite in_map_iff. intros (d & D & Hd).
    apply (proj1 (lower_gt d)) in D. now subst d.
Qed.

Lemma norm_lower s k : norm k (toLowerCase s) = norm k s.
Proof.
  revert k; induction s as [|c s IH]; intros k; [reflexivity|].
  unfold norm in *. cbn [toLowerCase map accepts]. rewrite ck_lower.
  destruct (norm_step k (ck c)); [apply IH|reflexivity].
Qed.

Lemma plain_lower s :
  Forall (fun c => plain c = true) s -> Forall (fun c => plain c = true) (toLowerCase s).
Proof.
  induction 1 as [|c s H _ IH]; [constructor|].
  constructor; [now rewrite lower_plain|exact IH].
Qed.

Lemma lower_lower s : toLowerCase (toLowerCase s) = toLowerCase s.
Proof. unfold toLowerCase. rewrite map_map. apply map_ext. apply lower_idem. Qed.

(** The punctuation steps. *)
Lemma punct_plain c : one_of ",:;()-" c = false -> one_of ".!?" c = false -> plain c = true.
Proof. revert c. by_chars. Qed.

Lemma plain_punct c : plain c = true -> one_of ",:;()-" c = false.
Proof. revert c. by_chars. Qed.

Lemma plain_term c : plain c = true -> one_of ".!?" c = true -> c = "."%char.
Proof. revert c. by_chars. Qed.

Lemma punct_steps_plain s :
  Forall (fun c => plain c = true)
         (replace_g re_term (L ".") (replace_g re_punct (L " ") s)).
Proof.
  unfold replace_g, re_term, re_punct. rewrite !replace_chr.
  induction s as [|c s IH]; [constructor|]. cbn [flat_map].
  rewrite flat_map_app. apply Forall_app. split; [|exact IH].
  destruct (one_of ",:;()-" c) eqn:P.
  - repeat constructor.
  - cbn [flat_map]. destruct (one_of ".!?" c) eqn:T.
    + repeat constructor.
    + repeat constructor. now apply punct_plain.
Qed.

Lemma flat_map_id (f : ascii -> str) s :
  Forall (fun c => f c = [c]) s -> flat_map f s = s.
Proof. induction 1 as [|c s H _ IH]; [reflexivity|]. simpl. now rewrite H, IH. Qed.

Lemma punct_noop s :
  Forall (fun c => plain c = true) s -> replace_g re_punct (L " ") s = s.
Proof.
  intros H. unfold replace_g, re_punct. rewrite replace_chr. apply flat_map_id.
  eapply Forall_impl; [|exact H]. intros c P. cbv beta. now rewrite (plain_punct c P).
Qed.

Lemma term_noop s :
  Forall (fun c => plain c = true) s -> replace_g re_term (L ".") s = s.
Proof.
  intros H. unfold replace_g, re_term. rewrite replace_chr. apply flat_map_id.
  eapply Forall_impl; [|exact H]. intros c P. cbv beta.
  destruct (one_of ".!?" c) eqn:T; [|reflexivity]. now rewrite (plain_term c P T).
Qed.

(** The closing tags. *)
Lemma starts_with_split pat u :
  starts_with pat u = true -> exists w, u = pat ++ w.
Proof.
  revert u; induction pat as [|p pat IH]; intros u H; [now exists u|].
  destruct u as [|c u]; [discriminate|]. simpl in H. apply andb_true_iff in H.
  destruct H as [E H]. apply Ascii.eqb_eq in E. subst c.
  destruct (IH u H) as [w ->]. now exists w.
Qed.

Lemma replace_str_cons pat rep c s :
  replace_str pat rep (c :: s) =
  if starts_with pat (c :: s) then rep ++ skipn (List.length pat) (c :: s)
  else c :: replace_str pat rep s.
Proof. reflexivity. Qed.

Lemma full_stop_tag_noop tag s : tagfree s -> full_stop_tag s tag = s.
Proof.
  unfold full_stop_tag. set (pat := L "</" ++ L tag ++ L ">").
  induction s as [|c s IH]; intros H.
  - reflexivity.
  - rewrite replace_str_cons. destruct (starts_with pat (c :: s)) eqn:E.
    + exfalso. apply starts_with_split in E. destruct E as [w E]. rewrite E in H.
      unfold pat in H. cbn [L list_ascii_of_string app] in H. destruct H as [H _].
      destruct (H eq_refl) as [G|G]; [discriminate G|]. apply G.
      right. rewrite !in_app_iff. left; right. now left.
    + f_equal. apply IH. exact (proj2 H).
Qed.

Lemma full_stop_tags_noop tags s : tagfree s -> fold_left full_stop_tag tags s = s.
Proof.
  intros H. induction tags as [|tag tags IH]; [reflexivity|].
  simpl. now rewrite full_stop_tag_noop.
Qed.

(** ** The output of [clean_text] *)

Lemma nb_sp : Forall (fun c => nb c = true) (L " ").
Proof. repeat constructor. Qed.

Lemma nb_dot : Forall (fun c => nb c = true) (L ".").
Proof. repeat constructor. Qed.

Lemma nb_dot_sp : Forall (fun c => nb c = true) (L ". ").
Proof. repeat constructor. Qed.

Create HintDb blind discriminated.

#[local] Hint Resolve within_punct within_term within_trim within_spaces within_dup
  within_pad nb_sp nb_dot nb_dot_sp : blind.

Lemma sp_class_1 c : ck c = CSp -> ws c = true.
Proof. rewrite ws_ck. now intros ->. Qed.

Lemma sp_class_2 c : ck c = CSp -> chr " " c = true.
Proof. rewrite sp_ck. now intros ->. Qed.

Lemma sp_class_3 c : ck c = CDot \/ ck c = COther -> chr " " c = false.
Proof. rewrite sp_ck. intros [-> | ->]; reflexivity. Qed.

(** The text [clean_text] returns is the lower-casing of a normal text
    without tags and without the punctuation the first steps replace. *)
Lemma clean_text_shape t :
  exists o, clean_text t = toLowerCase o /\ norm KStart o = true /\ tagfree o /\
            Forall (fun c => plain c = true) o.
Proof.
  cbv beta zeta delta [clean_text].
  set (x := replace_g re_term (L ".") (replace_g re_punct (L " ")
              (replace_g objTags [] (fold_left full_stop_tag arrFullStopTags t)))).
  assert (Hx1 : tagfree x).
  { unfold x. apply replace_g_tagfree; auto with blind.
    apply replace_g_tagfree; auto with blind.
    apply strip_tags_tagfree. }
  assert (Hx2 : Forall (fun c => plain c = true) x) by apply punct_steps_plain.
  set (y := replace_g re_trim [] x).
  assert (Hy0 : match y with c :: _ => ws c = false | [] => True end) by apply trim_head.
  assert (Hy1 : tagfree y).
  { unfold y. apply replace_g_tagfree; auto with blind. }
  assert (Hy2 : Forall (fun c => plain c = true) y).
  { unfold y. apply replace_g_forall; auto. }
  set (s1 := replace_g re_spaces (L " ") y ++ L ".").
  assert (Hs0 : pre KStart s1 = true).
  { unfold s1, re_spaces. rewrite replace_g_plus. now apply squeeze_pre. }
  assert (Hs1 : tagfree s1).
  { unfold s1. apply tagfree_snoc.
    - apply replace_g_tagfree; auto with blind.
    - intros [H|[]]; discriminate H.
    - intros [H|[]]; discriminate H. }
  assert (Hs2 : Forall (fun c => plain c = true) s1).
  { unfold s1. apply Forall_app. split; [|repeat constructor].
    apply replace_g_forall; auto. repeat constructor. }
  rewrite (newline_noop s1) by (eapply pre_no_odd_space; exact Hs0).
  set (t1 := replace_g re_pad (L ". ") (replace_g re_dup (L ".") s1)).
  assert (Ht1 : tagfree t1).
  { unfold t1. apply replace_g_tagfree; auto with blind.
    apply replace_g_tagfree; auto with blind. }
  assert (Ht2 : Forall (fun c => plain c = true) t1).
  { unfold t1. apply replace_g_forall; [|repeat constructor].
    apply replace_g_forall; [exact Hs2|repeat constructor]. }
  assert (Ht0 : normT KStart t1 = true).
  { unfold t1. rewrite replace_g_dup, replace_g_pad.
    apply pad_norm. now apply dedup_mid. }
  destruct (normT_split t1 KStart Ht0) as [[K _]|(o & Ho & No)]; [discriminate K|].
  assert (Hto : replace_g re_trim [] t1 = o).
  { rewrite Ho. unfold replace_g. apply (trim_norm [" "%char]) with (k := KStart); auto. }
  exists o. split; [|split; [exact No|split]].
  - rewrite Hto. unfold re_spaces, re_multi. rewrite !replace_g_plus.
    rewrite (proj1 (squeeze_norm ws sp_class_1 ck_ws_false o KStart No)).
    rewrite (proj1 (squeeze_norm (chr " ") sp_class_2 sp_class_3 o KStart No)).
    reflexivity.
  - rewrite <- Hto. apply replace_g_tagfree; auto with blind.
  - rewrite <- Hto. apply replace_g_forall; auto.
Qed.

(** [clean_text] is the identity on such a text once in lower case. *)
Lemma clean_text_fixed o :
  norm KStart o = true -> tagfree o -> Forall (fun c => plain c = true) o ->
  toLowerCase o = o -> clean_text o = o.
Proof.
  intros No To Po Lo. cbv beta zeta delta [clean_text].
  rewrite (full_stop_tags_noop _ o To), (strip_tags_noop o To).
  rewrite (punct_noop o Po), (term_noop o Po).
  assert (E1 : replace_g re_trim [] o = o).
  { unfold replace_g. rewrite <- (app_nil_r o) at 1.
    apply (trim_norm []) with (k := KStart); auto. }
  assert (E2 : replace_g re_spaces (L " ") o = o).
  { unfold re_spaces. rewrite replace_g_plus.
    apply (squeeze_norm ws sp_class_1 ck_ws_false o KStart No). }
  assert (E3 : replace_g re_multi (L " ") o = o).
  { unfold re_multi. rewrite replace_g_plus.
    apply (squeeze_norm (chr " ") sp_class_2 sp_class_3 o KStart No). }
  rewrite E1, E2.
  assert (Hp : pre KStart (o ++ L ".") = true).
  { rewrite <- E2 at 1. unfold re_spaces. rewrite replace_g_plus. apply squeeze_pre.
    destruct o as [|c o']; [exact I|]. apply norm_cons in No.
    destruct No as (k' & E & _). apply ck_ws_false.
    destruct (ck c); try discriminate E; auto. }
  rewrite (newline_noop (o ++ L ".")) by (eapply pre_no_odd_space; exact Hp).
  rewrite replace_g_dup, replace_g_pad.
  rewrite (proj1 (dedup_pad_norm o) No).
  assert (E4 : replace_g re_trim [] (o ++ L " ") = o).
  { unfold replace_g. apply (trim_norm [" "%char]) with (k := KStart); auto. }
  rewrite E4, E2, E3. exact Lo.
Qed.

(** C3: cleaning a cleaned text changes nothing. *)
Theorem clean_text_idempotent (t : str) :
  clean_text (clean_text t) = clean_text t.
Proof.
  destruct (clean_text_shape t) as (o & -> & No & To & Po).
  apply clean_text_fixed.
  - now rewrite norm_lower.
  - now apply tagfree_lower.
  - now apply plain_lower.
  - apply lower_lower.
Qed.

Lemma clean_text_norm t :
  norm KStart (clean_text t) = true /\
  Forall (fun c => plain c = true) (clean_text t) /\
  Forall (fun c => is_upper c = false) (clean_text t).
Proof.
  destruct (clean_text_shape t) as (o & -> & No & To & Po). repeat split.
  - now rewrite norm_lower.
  - now apply plain_lower.
  - unfold toLowerCase. apply Forall_forall. intros c H. apply in_map_iff in H.
    destruct H as (d & <- & _). apply lower_not_upper.
Qed.

Lemma norm_suffix u : forall k v, norm k (u ++ v) = true -> exists k', norm k' v = true.
Proof.
  induction u as [|c u IH]; intros k v H; [now exists k|].
  cbn [app] in H. apply norm_cons in H. destruct H as (k' & _ & H). eauto.
Qed.

(** What may stand next to what in a normal text. *)
Lemma norm_adjacent k u c d v :
  norm k (u ++ c :: d :: v) = true ->
  match ck c with
  | CDot => ck d = CSp
  | CSp => ck d = COther
  | CWs => False
  | COther => ck d <> CWs
  end.
Proof.
  intros H. apply norm_suffix in H. destruct H as (k1 & H).
  apply norm_cons in H. destruct H as (k2 & E1 & H).
  apply norm_cons in H. destruct H as (k3 & E2 & _).
  destruct (ck c), (ck d), k1; try discriminate E1; injection E1 as <-;
    try discriminate E2; try reflexivity; try discriminate.
Qed.

Lemma norm_first c v : norm KStart (c :: v) = true -> ck c = CDot \/ ck c = COther.
Proof.
  intros H. apply norm_cons in H. destruct H as (k' & E & _).
  destruct (ck c); try discriminate E; auto.
Qed.

Lemma norm_last u : forall k c, norm k (u ++ [c]) = true -> ck c = CDot.
Proof.
  induction u as [|a u IH]; intros k c H; cbn [app] in H;
    apply norm_cons in H; destruct H as (k' & E & H).
  - destruct (ck c), k; try discriminate E; injection E as <-; try discriminate H.
    all: reflexivity.
  - eapply IH; exact H.
Qed.

Lemma norm_nonempty o : norm KStart o = true -> exists u c, o = u ++ [c].
Proof.
  destruct o as [|a o]; [discriminate|]. intros _.
  destruct (exists_last (l := a :: o)) as (u & c & E); [discriminate|]. eauto.
Qed.

Lemma term_of_ck c :
  plain c = true -> terminator c = match ck c with CDot => true | _ => false end.
Proof. revert c. by_chars. Qed.

Lemma space_of_ck c :
  negb (none_of " " c) = match ck c with CSp => true | _ => false end.
Proof. revert c. by_chars. Qed.

(** C9: the text [clean_text] returns has no two terminators in a row, no
    space before a terminator, no white space at either end, no two
    white-space characters in a row, exactly one terminator [.] at its
    end, and no upper-case letter. *)
Theorem clean_text_invariants (t : str) :
  let o := clean_text t in
  (forall u c d v, o = u ++ c :: d :: v -> terminator c = true -> terminator d = false) /\
  (forall u d v, o = u ++ " "%char :: d :: v -> terminator d = false) /\
  (forall c v, o = c :: v -> ws c = false) /\
  (forall u c, o = u ++ [c] -> ws c = false) /\
  (forall u c d v, o = u ++ c :: d :: v -> ws c = true -> ws d = false) /\
  (exists u, o = u ++ ["."%char] /\ forall u' c, u = u' ++ [c] -> terminator c = false) /\
  (forall c, In c o -> is_upper c = false).
Proof.
  intros o. destruct (clean_text_norm t) as (No & Po & Uo). fold o in No, Po, Uo.
  assert (Pin : forall c, In c o -> plain c = true) by (now apply Forall_forall).
  assert (A1 : forall u c d v, o = u ++ c :: d :: v ->
                               terminator c = true -> terminator d = false).
  { intros u c d v E Tc. pose proof No as H. rewrite E in H.
    apply norm_adjacent in H.
    assert (Pc : plain c = true) by (apply Pin; rewrite E, in_app_iff; simpl; auto).
    assert (Pd : plain d = true) by (apply Pin; rewrite E, in_app_iff; simpl; auto).
    rewrite (term_of_ck c Pc) in Tc. rewrite (term_of_ck d Pd).
    destruct (ck c); try discriminate Tc. now rewrite H. }
  repeat split.
  - exact A1.
  - intros u d v E. pose proof No as H. rewrite E in H. apply norm_adjacent in H.
    cbn in H. rewrite term_of_ck, H; [reflexivity|].
    apply Pin. rewrite E, in_app_iff. simpl; auto.
  - intros c v E. rewrite E in No. apply ck_ws_false. now apply norm_first in No.
  - intros u c E. rewrite E in No. apply ck_ws_false. left. now apply norm_last in No.
  - intros u c d v E Wc. pose proof No as H. rewrite E in H. apply norm_adjacent in H.
    rewrite ws_ck in Wc. rewrite ws_ck.
    destruct (ck c); try discriminate Wc; [now rewrite H|destruct H].
  - destruct (norm_nonempty o No) as (u & c & E). exists u.
    assert (c = "."%char).
    { apply ck_dot. pose proof No as H. rewrite E in H. now apply norm_last in H. }
    subst c. split; [exact E|]. intros u' c ->.
    destruct (terminator c) eqn:Tc; [|reflexivity].
    rewrite <- app_assoc in E. cbn [app] in E.
    pose proof (A1 _ _ _ _ E Tc) as H. discriminate H.
  - now apply Forall_forall.
Qed.

(** ** Counting sentences and words *)

Lemma matches_chr_length p :
  forall s b, List.length (matches_from (Chr p) b 0 s) = List.length (filter p s).
Proof.
  induction s as [|c s IH]; intros b; cbn [matches_from filter]; rewrite exec_chr.
  - reflexivity.
  - destruct (p c); cbn [List.length]; now rewrite IH.
Qed.

Lemma sentence_count_spec t :
  sentence_count t =
  match List.length (filter terminator (clean_text t)) with
  | O => Throws
  | S n => Returns (Z.of_nat (S n))
  end.
Proof.
  unfold sentence_count, match_g, re_term. fold terminator.
  rewrite <- (matches_chr_length terminator (clean_text t) true).
  destruct (matches_from (Chr terminator) true 0 (clean_text t)); reflexivity.
Qed.

Lemma flat_map_filter (p : ascii -> bool) s :
  flat_map (fun c => if p c then [] else [c]) s = filter (fun c => negb (p c)) s.
Proof.
  induction s as [|c s IH]; [reflexivity|]. simpl. rewrite IH. now destruct (p c).
Qed.

Lemma word_count_spec t :
  word_count t =
  (1 + Z.of_nat (List.length (filter (fun c => negb (none_of " " c)) (clean_text t))))%Z.
Proof.
  unfold word_count, text_length, replace_g, re_non_space.
  now rewrite replace_chr, flat_map_filter.
Qed.

(** In a normal text every full stop but the last is followed by a space. *)
Lemma norm_count :
  forall o k, norm k o = true -> Forall (fun c => plain c = true) o ->
    List.length (filter terminator o) + (if kind_eqb k KDot then 1 else 0)
    <= List.length (filter (fun c => negb (none_of " " c)) o) + 1.
Proof.
  induction o as [|c o IH]; intros k H P.
  - destruct k; simpl; lia.
  - apply norm_cons in H. destruct H as (k' & E & H). inversion P as [|? ? Pc Po]; subst.
    specialize (IH k' H Po). cbn [filter].
    rewrite (term_of_ck c Pc), space_of_ck.
    destruct (ck c), k; try discriminate E; injection E as <-; cbn in *; lia.
Qed.

Lemma sentence_count_returns t :
  exists n, sentence_count t = Returns n /\ (1 <= n <= word_count t)%Z.
Proof.
  destruct (clean_text_norm t) as (No & Po & _).
  pose proof (norm_count _ _ No Po) as Hc. cbn [kind_eqb] in Hc.
  rewrite sentence_count_spec, word_count_spec.
  destruct (List.length (filter terminator (clean_text t))) as [|n] eqn:E.
  - exfalso. destruct (norm_nonempty _ No) as (u & c & Eo).
    assert (c = "."%char).
    { apply ck_dot. pose proof No as H. rewrite Eo in H. now apply norm_last in H. }
    subst c. assert (I : In "."%char (filter terminator (clean_text t))).
    { apply filter_In. split; [|reflexivity]. rewrite Eo, in_app_iff. simpl; auto. }
    destruct (filter terminator (clean_text t)); [destruct I|discriminate E].
  - eexists. split; [reflexivity|]. lia.
Qed.

Lemma word_count_pos t : (1 <= word_count t)%Z.
Proof. rewrite word_count_spec. lia. Qed.

Lemma quotient_ge_1 (w n : Z) : (1 <= n <= w)%Z -> (1 <= IZR w / IZR n)%R.
Proof.
  intros H. assert (Hn : (0 < IZR n)%R) by (apply IZR_lt; lia).
  assert (Hw : (IZR n <= IZR w)%R) by (apply IZR_le; lia).
  apply Rmult_le_reg_r with (IZR n); [exact Hn|].
  unfold Rdiv. rewrite Rmult_assoc, Rinv_l; lra.
Qed.

Lemma average_words_per_sentence_returns t :
  exists x, average_words_per_sentence t = Returns (Finite x) /\ (1 <= x)%R.
Proof.
  unfold average_words_per_sentence.
  destruct (sentence_count_returns (clean_text t)) as (n & -> & Hn).
  cbn [bind ndiv of_Z]. destruct (Z.eqb_spec n 0) as [->|_]; [lia|].
  eexists. split; [reflexivity|]. now apply quotient_ge_1.
Qed.

(** C10: there are at least as many words as sentences, and so at least
    one word per sentence on average. *)
Theorem words_at_least_sentences (t : str) :
  exists n, sentence_count t = Returns n /\ (n <= word_count t)%Z /\
  exists x, average_words_per_sentence t = Returns (Finite x) /\ (1 <= x)%R.
Proof.
  destruct (sentence_count_returns t) as (n & E & H).
  exists n. repeat split; [exact E|lia|apply average_words_per_sentence_returns].
Qed.

(** ** No call throws *)

Lemma flesch_kincaid_reading_ease_returns t :
  exists v, flesch_kincaid_reading_ease t = Returns v.
Proof.
  unfold flesch_kincaid_reading_ease.
  destruct (average_words_per_sentence_returns (clean_text t)) as (x & -> & _).
  cbn [bind]. eauto.
Qed.

Lemma flesch_kincaid_grade_level_returns t :
  exists v, flesch_kincaid_grade_level t = Returns v.
Proof.
  unfold flesch_kincaid_grade_level.
  destruct (average_words_per_sentence_returns (clean_text t)) as (x & -> & _).
  cbn [bind]. eauto.
Qed.

Lemma nonzero_count n : (1 <= n)%Z -> (n =? 0)%Z = false.
Proof. intros H. apply Z.eqb_neq. lia. Qed.

Lemma gunning_fog_score_returns t :
  exists x, gunning_fog_score t = Returns (Finite x).
Proof.
  unfold gunning_fog_score, percentage_words_with_three_syllables.
  destruct (average_words_per_sentence_returns (clean_text t)) as (x & -> & _).
  cbn [bind ndiv of_Z nmul nadd lift2]. rewrite nonzero_count by apply word_count_pos.
  cbn [nmul nadd lift2]. eauto.
Qed.

Lemma coleman_liau_index_returns t :
  exists x, coleman_liau_index t = Returns (Finite x).
Proof.
  unfold coleman_liau_index.
  destruct (sentence_count_returns (clean_text t)) as (n & -> & Hn).
  cbn [bind ndiv of_Z nmul nsub lift2]. rewrite nonzero_count by apply word_count_pos.
  cbn [nmul nsub lift2]. eauto.
Qed.

Lemma smog_index_returns t : exists v, smog_index t = Returns v.
Proof.
  unfold smog_index.
  destruct (sentence_count_returns (clean_text t)) as (n & -> & _).
  cbn [bind]. eauto.
Qed.

Lemma automated_readability_index_returns t :
  exists x, automated_readability_index t = Returns (Finite x).
Proof.
  unfold automated_readability_index.
  destruct (sentence_count_returns (clean_text t)) as (n & -> & Hn).
  cbn [bind ndiv of_Z nmul nsub nadd lift2].
  rewrite nonzero_count by apply word_count_pos. rewrite nonzero_count by lia.
  cbn [nmul nsub nadd lift2]. eauto.
Qed.

Lemma average_grade_level_returns t :
  exists fk gf cl sm ar,
    flesch_kincaid_grade_level t = Returns fk /\ gunning_fog_score t = Returns gf /\
    coleman_liau_index t = Returns cl /\ smog_index t = Returns sm /\
    automated_readability_index t = Returns ar /\
    average_grade_level t = Returns (ndiv (nadd (nadd (nadd (nadd fk gf) cl) sm) ar) 5).
Proof.
  destruct (flesch_kincaid_grade_level_returns t) as (fk & E1).
  destruct (gunning_fog_score_returns t) as (gf & E2).
  destruct (coleman_liau_index_returns t) as (cl & E3).
  destruct (smog_index_returns t) as (sm & E4).
  destruct (automated_readability_index_returns t) as (ar & E5).
  exists fk, (Finite gf), (Finite cl), sm, (Finite ar).
  unfold average_grade_level. rewrite E1, E2, E3, E4, E5. cbn [bind]. auto 10.
Qed.

(** C7: no operation throws.  [sentence_count] finds at least one
    terminator, [word_count] is at least 1, and every score, as well as
    [all], returns; the divisions by a count are divisions by a number
    that is not 0.  The operations that are plain functions here
    ([clean_text], [text_length], [letter_count], [word_count],
    [syllable_count], [average_syllables_per_word],
    [words_with_three_syllables], [percentage_words_with_three_syllables])
    have no throwing statement at all. *)
Theorem operations_total (t : str) :
  (exists n, sentence_count t = Returns n /\ (1 <= n)%Z) /\
  (1 <= word_count t)%Z /\
  (exists x, average_words_per_sentence t = Returns (Finite x)) /\
  (exists v, flesch_kincaid_reading_ease t = Returns v) /\
  (exists v, flesch_kincaid_grade_level t = Returns v) /\
  (exists x, gunning_fog_score t = Returns (Finite x)) /\
  (exists x, coleman_liau_index t = Returns (Finite x)) /\
  (exists v, smog_index t = Returns v) /\
  (exists x, automated_readability_index t = Returns (Finite x)) /\
  (exists v, average_grade_level t = Returns v) /\
  (exists r, all t = Returns r).
Proof.
  destruct (sentence_count_returns t) as (n & En & Hn).
  destruct (average_words_per_sentence_returns t) as (x & Ex & _).
  destruct (flesch_kincaid_reading_ease_returns t) as (fre & Efre).
  destruct (average_grade_level_returns t)
    as (fk & gf & cl & sm & ar & E1 & E2 & E3 & E4 & E5 & E6).
  destruct (gunning_fog_score_returns t) as (gf' & E2').
  destruct (coleman_liau_index_returns t) as (cl' & E3').
  destruct (automated_readability_index_returns t) as (ar' & E5').
  repeat split; eauto using word_count_pos.
  - exists n. split; [exact En|lia].
  - unfold all. rewrite En, Ex, Efre, E1, E2, E3, E4, E5, E6. cbn [bind]. eauto.
Qed.

(** C8: the average grade level is the mean of the five grade scores;
    the reading ease is not among them. *)
Theorem average_grade_level_is_mean (t : str) :
  exists fk gf cl sm ar,
    flesch_kincaid_grade_level t = Returns fk /\ gunning_fog_score t = Returns gf /\
    coleman_liau_index t = Returns cl /\ smog_index t = Returns sm /\
    automated_readability_index t = Returns ar /\
    average_grade_level t = Returns (mean [fk; gf; cl; sm; ar]).
Proof.
  destruct (average_grade_level_returns t)
    as (fk & gf & cl & sm & ar & E1 & E2 & E3 & E4 & E5 & E6).
  exists fk, gf, cl, sm, ar. repeat split; try assumption.
  rewrite E6. f_equal. unfold mean. cbn [fold_left List.length Z.of_nat].
  destruct fk as [a|]; [|reflexivity].
  cbn [nadd lift2]. rewrite Rplus_0_l. reflexivity.
Qed.

(** * Further properties *)

(** ** What [clean_text] keeps *)

Section Keep.

Variables (q : ascii -> bool) (r : regex) (rep : str).
Hypothesis Wr : within q r.
Hypothesis Wrep : Forall (fun c => q c = true) rep.

Lemma filter_all_in (l : str) :
  Forall (fun c => q c = true) l -> filter (fun c => negb (q c)) l = [].
Proof.
  induction 1 as [|c l H _ IH]; [reflexivity|]. simpl. now rewrite H.
Qed.

(** A replacement whose matches and replacement string stay inside a
    class leaves the characters outside the class as they are. *)
Lemma replace_from_keeps :
  forall s b k, Forall (fun c => q c = true) (firstn k s) ->
    filter (fun c => negb (q c)) (replace_from r rep b k s) =
    filter (fun c => negb (q c)) s.
Proof.
  induction s as [|c s IH]; intros b k Hk.
  - destruct k; simpl; [|reflexivity].
    destruct (exec r b []) as [[|n]|]; rewrite ?app_nil_r; try reflexivity;
      now apply filter_all_in.
  - destruct k as [|k].
    + cbn [replace_from]. destruct (exec r b (c :: s)) as [n|] eqn:E.
      * pose proof (mt_within q r Wr _ _ _ (exec_in _ _ _ _ E)) as Hw.
        destruct n as [|n].
        -- rewrite filter_app, (filter_all_in rep Wrep). cbn [app filter].
           rewrite (IH false 0) by constructor. reflexivity.
        -- cbn [firstn] in Hw. inversion Hw as [|? ? Hc Hw']; subst.
           rewrite filter_app, (filter_all_in rep Wrep). cbn [app filter].
           rewrite Hc. cbn [negb]. now apply IH.
      * cbn [filter]. rewrite (IH false 0) by constructor. reflexivity.
    + cbn [replace_from filter]. cbn [firstn] in Hk.
      inversion Hk as [|? ? Hc Hk']; subst. rewrite Hc. cbn [negb]. now apply IH.
Qed.

Lemma replace_g_keeps s :
  filter (fun c => negb (q c)) (replace_g r rep s) = filter (fun c => negb (q c)) s.
Proof. apply replace_from_keeps. constructor. Qed.

End Keep.

Lemma sep_punct : within separator re_punct. Proof. blind. Qed.
Lemma sep_term : within separator re_term. Proof. blind. Qed.
Lemma sep_trim : within separator re_trim. Proof. blind. Qed.
Lemma sep_spaces : within separator re_spaces. Proof. blind. Qed.
Lemma sep_newline : within separator re_newline. Proof. blind. Qed.
Lemma sep_dup : within separator re_dup. Proof. blind. Qed.
Lemma sep_pad : within separator re_pad. Proof. blind. Qed.
Lemma sep_multi : within separator re_multi. Proof. blind. Qed.

Lemma separator_lower c : separator (lower_char c) = separator c.
Proof. revert c. by_chars. Qed.

Lemma filter_word_lower s :
  filter (fun c => negb (separator c)) (toLowerCase s) =
  toLowerCase (filter (fun c => negb (separator c)) s).
Proof.
  induction s as [|c s IH]; [reflexivity|]. cbn [toLowerCase map filter].
  rewrite separator_lower. destruct (separator c); cbn [negb map]; unfold toLowerCase in *;
    now rewrite IH.
Qed.

Lemma sep_nil : Forall (fun c => separator c = true) [].
Proof. constructor. Qed.

Lemma sep_sp : Forall (fun c => separator c = true) (L " ").
Proof. repeat constructor. Qed.

Lemma sep_stop : Forall (fun c => separator c = true) (L ".").
Proof. repeat constructor. Qed.

Lemma sep_stop_sp : Forall (fun c => separator c = true) (L ". ").
Proof. repeat constructor. Qed.

(** Past the tags, [clean_text] touches white space and punctuation
    only. *)
Lemma clean_text_word_chars t :
  filter word_char (clean_text t) =
  toLowerCase (filter word_char
    (replace_g objTags [] (fold_left full_stop_tag arrFullStopTags t))).
Proof.
  change word_char with (fun c => negb (separator c)).
  cbv beta zeta delta [clean_text]. rewrite filter_word_lower. f_equal.
  rewrite (replace_g_keeps separator re_multi (L " ") sep_multi sep_sp).
  rewrite (replace_g_keeps separator re_spaces (L " ") sep_spaces sep_sp).
  rewrite (replace_g_keeps separator re_trim [] sep_trim sep_nil).
  rewrite (replace_g_keeps separator re_pad (L ". ") sep_pad sep_stop_sp).
  rewrite (replace_g_keeps separator re_dup (L ".") sep_dup sep_stop).
  rewrite (replace_g_keeps separator re_newline (L " ") sep_newline sep_sp).
  rewrite filter_app. cbn [L list_ascii_of_string filter]. rewrite app_nil_r.
  rewrite (replace_g_keeps separator re_spaces (L " ") sep_spaces sep_sp).
  rewrite (replace_g_keeps separator re_trim [] sep_trim sep_nil).
  rewrite (replace_g_keeps separator re_term (L ".") sep_term sep_stop).
  rewrite (replace_g_keeps separator re_punct (L " ") sep_punct sep_sp).
  reflexivity.
Qed.

Lemma no_lt_tagfree t : ~ In "<"%char t -> tagfree t.
Proof.
  intros H. rewrite <- (app_nil_r t). now apply tagfree_app.
Qed.

Lemma no_lt_untouched t :
  ~ In "<"%char t ->
  replace_g objTags [] (fold_left full_stop_tag arrFullStopTags t) = t.
Proof.
  intros H. apply no_lt_tagfree in H.
  now rewrite (full_stop_tags_noop _ t H), (strip_tags_noop t H).
Qed.

(** X1: in a text without [<], [clean_text] keeps every character that is
    neither white space nor one of [, : ; ( ) - . ! ?], in the same order,
    in lower case; it adds none. *)
Theorem clean_text_keeps_words (t : str) :
  ~ In "<"%char t ->
  filter word_char (clean_text t) = toLowerCase (filter word_char t).
Proof.
  intros H. now rewrite clean_text_word_chars, (no_lt_untouched t H).
Qed.

Lemma clean_text_keeps_words_witness :
  ~ In "<"%char (L "Hi, you!") /\
  filter word_char (clean_text (L "Hi, you!")) = toLowerCase (filter word_char (L "Hi, you!")).
Proof.
  assert (H : ~ In "<"%char (L "Hi, you!")).
  { cbn. intros G. repeat (destruct G as [G|G]; [discriminate G|]). exact G. }
  split; [exact H|apply (clean_text_keeps_words (L "Hi, you!") H)].
Defined.

(** ** letter_count *)

Lemma squeeze_nil p : forall s b, squeeze p [] b s = filter (fun c => negb (p c)) s.
Proof.
  induction s as [|c s IH]; intros b; [reflexivity|]. cbn [squeeze filter app].
  destruct (p c); cbn [negb]; [destruct b|]; now rewrite IH.
Qed.

Lemma letter_count_spec t :
  letter_count t = Z.of_nat (List.length (filter ascii_letter (clean_text t))).
Proof.
  unfold letter_count, text_length, re_non_letters. rewrite replace_g_plus, squeeze_nil.
  do 2 f_equal. apply filter_ext. intros c. apply negb_involutive.
Qed.







(** ** Empty and blank texts *)

Lemma ws_plain c : ws c = true -> plain c = true.
Proof. revert c. by_chars. Qed.

Lemma ws_not_lt c : ws c = true -> c <> "<"%char.
Proof. revert c. by_chars. Qed.

Lemma run_len_all p s : Forall (fun c => p c = true) s -> run_len p s = List.length s.
Proof. induction 1 as [|c s H _ IH]; [reflexivity|]. simpl. now rewrite H, IH. Qed.

Lemma trim_blank t : Forall (fun c => ws c = true) t -> replace_g re_trim [] t = [].
Proof.
  intros H. unfold replace_g. destruct H as [|c s Hc Hs]; [reflexivity|].
  rewrite replace_step, (exec_trim_start c s Hc), (run_len_all ws s Hs).
  cbn [app skipn]. rewrite skipn_all. reflexivity.
Qed.

Lemma blank_cleaned t : Forall (fun c => ws c = true) t -> clean_text t = L ".".
Proof.
  intros H.
  assert (Hlt : ~ In "<"%char t).
  { intros G. rewrite Forall_forall in H. apply H in G. discriminate G. }
  assert (Hp : Forall (fun c => plain c = true) t).
  { eapply Forall_impl; [|exact H]. apply ws_plain. }
  pose proof (no_lt_tagfree t Hlt) as Ht.
  cbv beta zeta delta [clean_text].
  rewrite (full_stop_tags_noop _ t Ht), (strip_tags_noop t Ht).
  rewrite (punct_noop t Hp), (term_noop t Hp), (trim_blank t H).
  reflexivity.
Qed.

(** X3: the empty text and every text made of white space only are
    cleaned to the single terminator ["."]. *)
Theorem clean_text_blank (t : str) :
  Forall (fun c => ws c = true) t -> clean_text t = L ".".
Proof. apply blank_cleaned. Qed.

Lemma clean_text_blank_witness :
  Forall (fun c => ws c = true) [" "%char; LF; " "%char] /\
  clean_text [" "%char; LF; " "%char] = L ".".
Proof.
  assert (H : Forall (fun c => ws c = true) [" "%char; LF; " "%char])
    by (repeat constructor).
  split; [exact H|apply (clean_text_blank _ H)].
Defined.

(** X4: on such a text there is one word, one sentence, no letter and no
    long word, and both averages are 1: the scores are computed from
    these, without any division by zero. *)
Theorem blank_text_counts (t : str) (f : option bool) :
  Forall (fun c => ws c = true) t ->
  word_count t = 1%Z /\ sentence_count t = Returns 1%Z /\ letter_count t = 0%Z /\
  words_with_three_syllables t f = 0%Z /\
  average_words_per_sentence t = Returns (Finite 1) /\
  average_syllables_per_word t = Finite 1.
Proof.
  intros H. pose proof (blank_cleaned t H) as E.
  assert (E' : clean_text (L ".") = L ".") by reflexivity.
  assert (Q : (1 / 1 = 1)%R) by lra.
  repeat split.
  - unfold word_count. now rewrite E.
  - unfold sentence_count. now rewrite E.
  - unfold letter_count. now rewrite E.
  - unfold words_with_three_syllables. now rewrite E.
  - unfold average_words_per_sentence, sentence_count, word_count.
    rewrite E, E'. cbn. now rewrite Q.
  - unfold average_syllables_per_word, word_count. rewrite E, E'. cbn. now rewrite Q.
Qed.

Lemma blank_text_counts_witness :
  Forall (fun c => ws c = true) (L "  ") /\
  word_count (L "  ") = 1%Z /\ sentence_count (L "  ") = Returns 1%Z /\
  letter_count (L "  ") = 0%Z /\ words_with_three_syllables (L "  ") None = 0%Z /\
  average_words_per_sentence (L "  ") = Returns (Finite 1) /\
  average_syllables_per_word (L "  ") = Finite 1.
Proof.
  assert (H : Forall (fun c => ws c = true) (L "  ")) by (repeat constructor).
  split; [exact H|apply (blank_text_counts (L "  ") None H)].
Defined.

(** ** What the cleaned text never contains *)

Lemma norm_no_odd_space : forall s k, norm k s = true -> no_odd_space s.
Proof.
  induction s as [|c s IH]; intros k H; [constructor|].
  apply norm_cons in H. destruct H as (k' & E & H).
  constructor; [|eapply IH; exact H].
  intros K. rewrite K in E. destruct k; discriminate E.
Qed.

Lemma ws_only_space c : ws c = true -> ck c <> CWs -> c = " "%char.
Proof. revert c. by_chars. Qed.

Lemma plain_none c : plain c = true -> one_of ",:;()-!?" c = false.
Proof. revert c. by_chars. Qed.

(** X5: the cleaned text has none of [, : ; ( ) - ! ?], and its only
    white space is the space: tabs, line breaks and no-break spaces are
    gone. *)
Theorem clean_text_alphabet (t : str) (c : ascii) :
  In c (clean_text t) ->
  one_of ",:;()-!?" c = false /\ (ws c = true -> c = " "%char).
Proof.
  intros H. destruct (clean_text_norm t) as (No & Po & _). split.
  - apply plain_none. rewrite Forall_forall in Po. now apply Po.
  - intros W. apply ws_only_space; [exact W|].
    pose proof (norm_no_odd_space _ _ No) as O. unfold no_odd_space in O.
    rewrite Forall_forall in O. now apply O.
Qed.

Lemma clean_text_alphabet_witness :
  In "a"%char (clean_text (L "a")) /\
  one_of ",:;()-!?" "a" = false /\ (ws "a" = true -> "a"%char = " "%char).
Proof.
  assert (H : In "a"%char (clean_text (L "a"))) by (vm_compute; auto).
  split; [exact H|apply (clean_text_alphabet (L "a") "a" H)].
Defined.

Lemma clean_text_tagfree t : tagfree (clean_text t).
Proof.
  destruct (clean_text_shape t) as (o & -> & _ & To & _). now apply tagfree_lower.
Qed.

Lemma tagfree_no_tag s :
  tagfree s -> forall u m v, s = u ++ "<"%char :: m ++ ">"%char :: v -> m = [] \/ In ">"%char m.
Proof.
  intros H u m v ->. apply (tagfree_skipn (List.length u)) in H.
  rewrite skipn_app, skipn_all, Nat.sub_diag in H. cbn [app skipn] in H.
  destruct H as [H _]. destruct (H eq_refl) as [G|G].
  - destruct m as [|d m]; [now left|]. right. cbn in G. subst d. now left.
  - exfalso. apply G. rewrite in_app_iff. right. now left.
Qed.

(** X6: the cleaned text has no tag left: wherever a [<] is followed by a
    [>], either nothing stands between the two or a [>] comes earlier.
    Stripping the tags a second time removes nothing. *)
Theorem clean_text_no_tag (t : str) :
  (forall u m v, clean_text t = u ++ "<"%char :: m ++ ">"%char :: v ->
                 m = [] \/ In ">"%char m) /\
  replace_g objTags [] (clean_text t) = clean_text t.
Proof.
  split.
  - apply tagfree_no_tag, clean_text_tagfree.
  - apply strip_tags_noop, clean_text_tagfree.
Qed.

(** ** The words of the cleaned text *)

Lemma split_space_length :
  forall s cur,
    List.length (split_from (L " ") cur 0 s) =
    S (List.length (filter (fun c => negb (none_of " " c)) s)).
Proof.
  induction s as [|c s IH]; intros cur; [reflexivity|].
  cbn [split_from L list_ascii_of_string starts_with List.length Nat.sub filter].
  rewrite andb_true_r, space_of_ck.
  replace (Ascii.eqb " " c) with (match ck c with CSp => true | _ => false end)
    by (symmetry; exact (sp_ck c)).
  destruct (ck c); cbn [List.length]; now rewrite IH.
Qed.

Lemma split_space_no_space :
  forall s cur w, ~ In " "%char cur ->
    In w (split_from (L " ") cur 0 s) -> ~ In " "%char w.
Proof.
  induction s as [|c s IH]; intros cur w Hc.
  - cbn. intros [<-|[]]. now rewrite <- in_rev.
  - cbn [split_from L list_ascii_of_string starts_with List.length Nat.sub].
    rewrite andb_true_r. destruct (Ascii.eqb_spec " " c) as [<-|N].
    + intros [<-|H]; [now rewrite <- in_rev|]. apply (IH [] w); auto.
    + apply IH. intros [G|G]; [congruence|auto].
Qed.

Lemma split_space_nonempty :
  forall s k cur w,
    norm k s = true ->
    (cur <> [] \/ k = KStart \/ k = KSp \/ k = KDotSp) ->
    In w (split_from (L " ") cur 0 s) -> w <> [].
Proof.
  induction s as [|c s IH]; intros k cur w H Hc.
  - destruct k; try discriminate H. cbn. intros [<-|[]].
    destruct Hc as [Hc|[Hc|[Hc|Hc]]]; try discriminate Hc.
    intros R. apply Hc. destruct cur; [reflexivity|].
    cbn in R. now apply app_eq_nil in R.
  - apply norm_cons in H. destruct H as (k' & E & H).
    cbn [split_from L list_ascii_of_string starts_with List.length Nat.sub].
    rewrite andb_true_r.
    replace (Ascii.eqb " " c) with (match ck c with CSp => true | _ => false end)
      by (symmetry; exact (sp_ck c)).
    destruct (ck c) eqn:K.
    + apply (IH k'); [exact H|left; discriminate].
    + intros [<-|G].
      * destruct Hc as [Hc|[Hc|[Hc|Hc]]]; try (subst k; discriminate E).
        intros R. apply Hc. destruct cur; [reflexivity|].
        cbn in R. now apply app_eq_nil in R.
      * apply (IH k' [] w H); [|exact G].
        destruct k; try discriminate E; injection E as <-; auto.
    + destruct k; discriminate E.
    + apply (IH k'); [exact H|left; discriminate].
Qed.

(** X7: the loops over the words run [word_count] times, and no word they
    see is empty or contains a space. *)
Theorem tokens_are_words (t : str) :
  Z.of_nat (List.length (tokens t)) = word_count t /\
  forall w, In w (tokens t) -> w <> [] /\ ~ In " "%char w.
Proof.
  unfold tokens, split. split.
  - rewrite word_count_spec, split_space_length. lia.
  - intros w H. destruct (clean_text_norm t) as (No & _). split.
    + eapply split_space_nonempty; [exact No| |exact H]. auto.
    + eapply split_space_no_space; [|exact H]. intros [].
Qed.

(** ** syllable_count *)

Lemma own_property_value k v :
  own_property arrProblemWords k = Some v -> (v = 3 \/ v = 2)%Z.
Proof.
  cbn [own_property arrProblemWords].
  repeat (destruct (list_eq_dec ascii_dec _ k) as [_|_]; [intros [= <-]; auto|]).
  discriminate.
Qed.

Lemma find_key k k' :
  find (fun x => if list_eq_dec ascii_dec (L x) k then true else false) inherited_keys
  = Some k' -> In k' inherited_keys /\ L k' = k.
Proof.
  intros H. apply find_some in H. destruct H as [H1 H2]. split; [exact H1|].
  now destruct (list_eq_dec ascii_dec (L k') k).
Qed.

Lemma find_key_none k :
  find (fun x => if list_eq_dec ascii_dec (L x) k then true else false) inherited_keys
  = None -> ~ In k (map L inherited_keys).
Proof.
  intros H G. apply in_map_iff in G. destruct G as (x & <- & Hx).
  apply (find_none _ _ H) in Hx. cbv beta in Hx.
  now destruct (list_eq_dec ascii_dec (L x) (L x)).
Qed.

Lemma own_inherited k k' :
  In k' inherited_keys -> L k' = k -> own_property arrProblemWords k = None.
Proof.
  intros [<-|[<-|[]]] <-; reflexivity.
Qed.

Lemma syllable_count_cases (w : str) :
  (exists k, In k inherited_keys /\ toLowerCase w = L k /\ syllable_count w = VObj k) \/
  (~ In (toLowerCase w) (map L inherited_keys) /\
   exists z, syllable_count w = VNum z /\ (z < 0 \/ 0 < z)%Z).
Proof.
  unfold syllable_count, get_property.
  destruct (own_property arrProblemWords (toLowerCase w)) as [v|] eqn:O.
  - right. split.
    + intros G. apply in_map_iff in G. destruct G as (x & E & Hx).
      rewrite (own_inherited _ x Hx E) in O. discriminate O.
    + apply own_property_value in O. exists v.
      destruct O as [-> | ->]; cbn; split; auto; lia.
  - destruct (find _ inherited_keys) as [k'|] eqn:F.
    + left. apply find_key in F. destruct F as [F1 F2]. exists k'. cbn. auto.
    + right. split; [now apply find_key_none|]. cbn [truthy].
      destruct (fold_left strip_affix arrPrefixSuffix (toLowerCase w, 0%Z)) as [s n].
      destruct (Z.eqb_spec (pattern_count (replace_g re_non_lower [] s) n) 0) as [E|E].
      * exists 1%Z. split; [reflexivity|lia].
      * eexists. split; [reflexivity|lia].
Qed.

(** X8: [syllable_count] reads its word up to letter case.  It returns an
    object inherited from [Object.prototype], not a number, exactly for
    the words [constructor] and [__proto__]; for every other word it
    returns a number that is never 0. *)
Theorem syllable_count_result (w : str) :
  syllable_count (toLowerCase w) = syllable_count w /\
  ((exists k, In k inherited_keys /\ toLowerCase w = L k /\ syllable_count w = VObj k) \/
   (~ In (toLowerCase w) (map L inherited_keys) /\
    exists z, syllable_count w = VNum z /\ (z < 0 \/ 0 < z)%Z)).
Proof.
  split; [|apply syllable_count_cases].
  unfold syllable_count. now rewrite lower_lower.
Qed.

Section Must.

Variable q : ascii -> bool.

Lemma mt_must r :
  must q r -> forall b s n, In n (mt r b s) -> Exists (fun c => q c = true) (firstn n s).
Proof.
  induction r as [p| | | |r1 IH1 r2 IH2|r1 IH1 r2 IH2|p|p]; cbn [must mt];
    intros M b s n; try (destruct M; fail).
  - destruct s as [|c s]; [intros []|]. destruct (p c) eqn:E; [|intros []].
    intros [<-|[]]. cbn. left. auto.
  - rewrite in_flat_map. intros (n1 & H1 & H). rewrite in_map_iff in H.
    destruct H as (n2 & <- & H2). rewrite firstn_plus, Exists_app.
    destruct M as [M|M]; [left|right]; eauto.
  - destruct M as [M1 M2]. rewrite in_app_iff. intros [H|H]; eauto.
  - destruct s as [|c [|d s]]; try (intros []).
    destruct (p c) eqn:E; cbn [andb]; [|intros []].
    destruct (Ascii.eqb c d); [|intros []]. intros [<-|[]]. cbn. left. auto.
Qed.



End Must.

Ltac needs :=
  cbn [must lit lit_of L list_ascii_of_string Lit Opt Plus];
  first [ solve [by_chars] | left; needs | right; needs | split; needs ].







(** ** average_syllables_per_word *)

Lemma fold_js_add l :
  forall acc,
    is_num (fold_left (fun a w => js_add a (syllable_count w)) l acc) =
    (is_num acc && forallb (fun w => is_num (syllable_count w)) l)%bool.
Proof.
  induction l as [|w l IH]; intros acc; cbn [fold_left forallb].
  - now rewrite andb_true_r.
  - rewrite IH. destruct acc, (syllable_count w); reflexivity.
Qed.

Lemma syllable_count_not_text w : syllable_count w <> VText.
Proof.
  destruct (syllable_count_cases w) as [(k & _ & _ & ->)|(_ & z & -> & _)];
    discriminate.
Qed.

(** X10: [average_syllables_per_word] is not a number exactly when one of
    the words of the cleaned text is a key inherited from
    [Object.prototype] ([constructor], [__proto__]): the sum then turns
    into a string.  In every other case it is a finite number. *)
Theorem average_syllables_nan (t : str) :
  (average_syllables_per_word t = NonFinite <->
   exists w k, In w (tokens t) /\ syllable_count w = VObj k) /\
  ((forall w, In w (tokens t) -> exists z, syllable_count w = VNum z) ->
   exists x, average_syllables_per_word t = Finite x).
Proof.
  unfold average_syllables_per_word, tokens.
  set (l := split (L " ") (clean_text t)).
  remember (fold_left (fun acc w => js_add acc (syllable_count w)) l (VNum 0)) as v eqn:Ev.
  assert (Hv : is_num v = forallb (fun w => is_num (syllable_count w)) l)
    by (rewrite Ev; now rewrite fold_js_add).
  clear Ev.
  assert (Hw : (word_count (clean_text t) =? 0)%Z = false)
    by (apply nonzero_count, word_count_pos).
  split; [split|].
  - intros H. assert (N : is_num v = false).
    { destruct v; [|reflexivity|reflexivity].
      unfold to_number, of_Z, ndiv in H. rewrite Hw in H. discriminate H. }
    rewrite Hv in N. apply not_true_iff_false in N.
    rewrite forallb_forall in N.
    assert (E : exists w, In w l /\ is_num (syllable_count w) = false).
    { clear - N. induction l as [|a l IH].
      - exfalso. apply N. intros x [].
      - destruct (is_num (syllable_count a)) eqn:A.
        + destruct IH as (w & Hw & Hn).
          * intros G. apply N. intros x [<-|Hx]; auto.
          * exists w. split; [now right|exact Hn].
        + exists a. split; [now left|exact A]. }
    destruct E as (w & Hin & Hn). exists w.
    destruct (syllable_count w) as [z|k|] eqn:S; [discriminate Hn| |].
    + exists k. auto.
    + exfalso. now apply (syllable_count_not_text w).
  - intros (w & k & Hin & S). assert (N : is_num v = false).
    { rewrite Hv. apply not_true_iff_false. rewrite forallb_forall. intros G.
      specialize (G w Hin). rewrite S in G. discriminate G. }
    destruct v; [discriminate N|reflexivity|reflexivity].
  - intros H. assert (N : is_num v = true).
    { rewrite Hv. apply forallb_forall. intros w Hin.
      destruct (H w Hin) as (z & ->). reflexivity. }
    destruct v as [z| |]; try discriminate N.
    unfold to_number, of_Z, ndiv. rewrite Hw. eauto.
Qed.

(** ** The statistics of a cleaned text *)

Lemma clean_text_again t : clean_text (clean_text t) = clean_text t.
Proof.
  destruct (clean_text_shape t) as (o & -> & No & To & Po).
  apply clean_text_fixed.
  - now rewrite norm_lower.
  - now apply tagfree_lower.
  - now apply plain_lower.
  - apply lower_lower.
Qed.

Lemma word_count_clean t : word_count (clean_text t) = word_count t.
Proof. unfold word_count. now rewrite clean_text_again. Qed.

Lemma sentence_count_clean t : sentence_count (clean_text t) = sentence_count t.
Proof. unfold sentence_count. now rewrite clean_text_again. Qed.

Lemma letter_count_clean t : letter_count (clean_text t) = letter_count t.
Proof. unfold letter_count. now rewrite clean_text_again. Qed.

Lemma average_words_clean t :
  average_words_per_sentence (clean_text t) = average_words_per_sentence t.
Proof. unfold average_words_per_sentence. now rewrite clean_text_again. Qed.

Lemma average_syllables_clean t :
  average_syllables_per_word (clean_text t) = average_syllables_per_word t.
Proof. unfold average_syllables_per_word. now rewrite clean_text_again. Qed.

Lemma long_words_clean t f g :
  words_with_three_syllables (clean_text t) f = words_with_three_syllables t g.
Proof. unfold words_with_three_syllables. now rewrite clean_text_again. Qed.

Lemma percentage_clean t f g :
  percentage_words_with_three_syllables (clean_text t) f =
  percentage_words_with_three_syllables t g.
Proof. unfold percentage_words_with_three_syllables. now rewrite !clean_text_again. Qed.

Lemma reading_ease_clean t :
  flesch_kincaid_reading_ease (clean_text t) = flesch_kincaid_reading_ease t.
Proof. unfold flesch_kincaid_reading_ease. now rewrite clean_text_again. Qed.

Lemma grade_level_clean t :
  flesch_kincaid_grade_level (clean_text t) = flesch_kincaid_grade_level t.
Proof. unfold flesch_kincaid_grade_level. now rewrite clean_text_again. Qed.

Lemma gunning_fog_clean t : gunning_fog_score (clean_text t) = gunning_fog_score t.
Proof. unfold gunning_fog_score. now rewrite clean_text_again. Qed.

Lemma coleman_liau_clean t : coleman_liau_index (clean_text t) = coleman_liau_index t.
Proof. unfold coleman_liau_index. now rewrite clean_text_again. Qed.

Lemma smog_clean t : smog_index (clean_text t) = smog_index t.
Proof. unfold smog_index. now rewrite clean_text_again. Qed.

Lemma readability_clean t :
  automated_readability_index (clean_text t) = automated_readability_index t.
Proof. unfold automated_readability_index. now rewrite clean_text_again. Qed.

(** X11: every counter, average and score gives on [clean_text t] what it
    gives on [t]: the cleaning each method repeats on the text it is
    handed, already cleaned by its caller, changes no result. *)
Theorem statistics_of_cleaned (t : str) (f : option bool) :
  word_count (clean_text t) = word_count t /\
  sentence_count (clean_text t) = sentence_count t /\
  letter_count (clean_text t) = letter_count t /\
  average_words_per_sentence (clean_text t) = average_words_per_sentence t /\
  average_syllables_per_word (clean_text t) = average_syllables_per_word t /\
  words_with_three_syllables (clean_text t) f = words_with_three_syllables t f /\
  percentage_words_with_three_syllables (clean_text t) f =
    percentage_words_with_three_syllables t f /\
  flesch_kincaid_reading_ease (clean_text t) = flesch_kincaid_reading_ease t /\
  flesch_kincaid_grade_level (clean_text t) = flesch_kincaid_grade_level t /\
  gunning_fog_score (clean_text t) = gunning_fog_score t /\
  coleman_liau_index (clean_text t) = coleman_liau_index t /\
  smog_index (clean_text t) = smog_index t /\
  automated_readability_index (clean_text t) = automated_readability_index t /\
  average_grade_level (clean_text t) = average_grade_level t.
Proof.
  repeat split;
    auto using word_count_clean, sentence_count_clean, letter_count_clean,
      average_words_clean, average_syllables_clean, long_words_clean, percentage_clean,
      reading_ease_clean, grade_level_clean, gunning_fog_clean, coleman_liau_clean,
      smog_clean, readability_clean.
  unfold average_grade_level.
  now rewrite grade_level_clean, gunning_fog_clean, coleman_liau_clean, smog_clean,
    readability_clean.
Qed.

(** ** Long words *)

Lemma fold_count (F : Z -> str -> Z) :
  (forall n w, n <= F n w <= n + 1)%Z ->
  forall l a, (a <= fold_left F l a <= a + Z.of_nat (List.length l))%Z.
Proof.
  intros HF. induction l as [|w l IH]; intros a; cbn [fold_left List.length].
  - lia.
  - specialize (IH (F a w)). specialize (HF a w). lia.
Qed.

Lemma tokens_length t : Z.of_nat (List.length (tokens t)) = word_count t.
Proof. unfold tokens, split. rewrite word_count_spec, split_space_length. lia. Qed.

Lemma long_words_range t f : (0 <= words_with_three_syllables t f <= word_count t)%Z.
Proof.
  rewrite <- tokens_length. unfold words_with_three_syllables.
  apply (fold_count _) with (a := 0%Z). intros n w. cbn [flag_truthy].
  destruct (js_gt2 (syllable_count w)); lia.
Qed.

Lemma quotient_0_1 (l w : Z) :
  (0 <= l <= w)%Z -> (1 <= w)%Z -> (0 <= IZR l / IZR w <= 1)%R.
Proof.
  intros Hl Hw. assert (Pw : (0 < IZR w)%R) by (apply IZR_lt; lia).
  assert (Pl : (0 <= IZR l)%R) by (apply IZR_le; lia).
  assert (Lw : (IZR l <= IZR w)%R) by (apply IZR_le; lia).
  split.
  - unfold Rdiv. apply Rmult_le_pos; [exact Pl|]. left. now apply Rinv_0_lt_compat.
  - apply Rmult_le_reg_r with (IZR w); [exact Pw|].
    unfold Rdiv. rewrite Rmult_assoc, Rinv_l; lra.
Qed.

Lemma percentage_range t f :
  exists p, percentage_words_with_three_syllables t f = Finite p /\ (0 <= p <= 100)%R.
Proof.
  unfold percentage_words_with_three_syllables.
  rewrite word_count_clean.
  pose proof (long_words_range (clean_text t) (Some true)) as H.
  pose proof (word_count_pos (clean_text t)) as W.
  cbn [ndiv of_Z nmul lift2]. rewrite (nonzero_count _ W). cbn [nmul lift2].
  eexists. split; [reflexivity|].
  pose proof (quotient_0_1 _ _ H W). lra.
Qed.

(** X12: the long words are between none and all of the words, and their
    percentage is a number between 0 and 100. *)
Theorem long_words_bounded (t : str) (f : option bool) :
  (0 <= words_with_three_syllables t f <= word_count t)%Z /\
  exists p, percentage_words_with_three_syllables t f = Finite p /\ (0 <= p <= 100)%R.
Proof. split; [apply long_words_range|apply percentage_range]. Qed.

(** ** The scores as formulas over the counters *)

Local Open Scope R_scope.

Lemma average_words_formula t n :
  sentence_count t = Returns n -> (1 <= n)%Z ->
  average_words_per_sentence t = Returns (Finite (IZR (word_count t) / IZR n)).
Proof.
  intros E Hn. unfold average_words_per_sentence.
  rewrite sentence_count_clean, E, word_count_clean. cbn [bind ndiv of_Z].
  now rewrite (nonzero_count n Hn).
Qed.

Lemma coleman_liau_formula t n :
  sentence_count t = Returns n ->
  coleman_liau_index t =
  Returns (Finite (5.89 * (IZR (letter_count t) / IZR (word_count t))
                   - 0.3 * (IZR n / IZR (word_count t)) - 15.8)).
Proof.
  intros E. unfold coleman_liau_index.
  rewrite sentence_count_clean, E, letter_count_clean, word_count_clean.
  cbn [bind ndiv of_Z nmul nsub lift2]. rewrite (nonzero_count _ (word_count_pos t)).
  reflexivity.
Qed.

Lemma readability_formula t n :
  sentence_count t = Returns n -> (1 <= n)%Z ->
  automated_readability_index t =
  Returns (Finite (4.71 * (IZR (letter_count t) / IZR (word_count t))
                   + 0.5 * (IZR (word_count t) / IZR n) - 21.43)).
Proof.
  intros E Hn. unfold automated_readability_index.
  rewrite sentence_count_clean, E, letter_count_clean, word_count_clean.
  cbn [bind ndiv of_Z nmul nsub nadd lift2].
  rewrite (nonzero_count _ (word_count_pos t)), (nonzero_count n Hn).
  reflexivity.
Qed.

Lemma smog_radicand t n :
  (1 <= n)%Z -> 3.1291 <= IZR (words_with_three_syllables t None) * (30 / IZR n) + 3.1291.
Proof.
  intros Hn. pose proof (long_words_range t None) as [H _].
  assert (0 <= IZR (words_with_three_syllables t None)) by (apply IZR_le; lia).
  assert (0 < IZR n) by (apply IZR_lt; lia).
  assert (0 <= 30 / IZR n).
  { unfold Rdiv. apply Rmult_le_pos; [lra|]. left. now apply Rinv_0_lt_compat. }
  assert (0 <= IZR (words_with_three_syllables t None) * (30 / IZR n))
    by now apply Rmult_le_pos.
  lra.
Qed.

Lemma smog_formula t n :
  sentence_count t = Returns n -> (1 <= n)%Z ->
  smog_index t =
  Returns (Finite (1.043 * sqrt (IZR (words_with_three_syllables t None) * (30 / IZR n)
                                 + 3.1291))).
Proof.
  intros E Hn. unfold smog_index.
  rewrite sentence_count_clean, E, (long_words_clean t None None).
  cbn [bind ndiv of_Z nmul nadd lift2]. rewrite (nonzero_count n Hn).
  cbn [nmul nadd lift2 nsqrt].
  destruct (Rle_dec 0 _) as [_|N]; [reflexivity|].
  exfalso. apply N. pose proof (smog_radicand t n Hn). lra.
Qed.

Lemma reading_ease_formula t a :
  average_words_per_sentence t = Returns (Finite a) ->
  flesch_kincaid_reading_ease t =
  Returns (nsub (Finite (206.835 - 1.015 * a))
                (nmul (Finite 84.6) (average_syllables_per_word t))).
Proof.
  intros E. unfold flesch_kincaid_reading_ease.
  now rewrite average_words_clean, E, average_syllables_clean.
Qed.

Lemma grade_level_formula t a :
  average_words_per_sentence t = Returns (Finite a) ->
  flesch_kincaid_grade_level t =
  Returns (nsub (nadd (Finite (0.39 * a))
                      (nmul (Finite 11.8) (average_syllables_per_word t)))
                (Finite 15.59)).
Proof.
  intros E. unfold flesch_kincaid_grade_level.
  now rewrite average_words_clean, E, average_syllables_clean.
Qed.

Lemma gunning_fog_formula t a p f :
  average_words_per_sentence t = Returns (Finite a) ->
  percentage_words_with_three_syllables t f = Finite p ->
  gunning_fog_score t = Returns (Finite ((a + p) * 0.4)).
Proof.
  intros E P. unfold gunning_fog_score.
  now rewrite average_words_clean, E, (percentage_clean t (Some false) f), P.
Qed.

(** X13: each score is its formula over the counters of the text itself:
    with [n] sentences, [w] words and [l] letters, the average is [w/n],
    Coleman-Liau is [5.89 l/w - 0.3 n/w - 15.8], the automated index is
    [4.71 l/w + 0.5 w/n - 21.43], SMOG is [1.043 sqrt(long 30/n + 3.1291)],
    Gunning-Fog is [(w/n + percentage) 0.4], and the two Flesch-Kincaid
    scores combine [w/n] with [average_syllables_per_word]. *)
Theorem scores_from_counters (t : str) (f : option bool) :
  exists n p,
    sentence_count t = Returns n /\
    percentage_words_with_three_syllables t f = Finite p /\
    average_words_per_sentence t = Returns (Finite (IZR (word_count t) / IZR n)) /\
    coleman_liau_index t =
      Returns (Finite (5.89 * (IZR (letter_count t) / IZR (word_count t))
                       - 0.3 * (IZR n / IZR (word_count t)) - 15.8)) /\
    automated_readability_index t =
      Returns (Finite (4.71 * (IZR (letter_count t) / IZR (word_count t))
                       + 0.5 * (IZR (word_count t) / IZR n) - 21.43)) /\
    smog_index t =
      Returns (Finite (1.043 * sqrt (IZR (words_with_three_syllables t None) * (30 / IZR n)
                                     + 3.1291))) /\
    gunning_fog_score t = Returns (Finite ((IZR (word_count t) / IZR n + p) * 0.4)) /\
    flesch_kincaid_reading_ease t =
      Returns (nsub (Finite (206.835 - 1.015 * (IZR (word_count t) / IZR n)))
                    (nmul (Finite 84.6) (average_syllables_per_word t))) /\
    flesch_kincaid_grade_level t =
      Returns (nsub (nadd (Finite (0.39 * (IZR (word_count t) / IZR n)))
                          (nmul (Finite 11.8) (average_syllables_per_word t)))
                    (Finite 15.59)).
Proof.
  destruct (sentence_count_returns t) as (n & E & Hn).
  destruct (percentage_range t f) as (p & P & _).
  assert (H1 : (1 <= n)%Z) by lia.
  pose proof (average_words_formula t n E H1) as A.
  exists n, p. repeat split; auto using coleman_liau_formula, readability_formula,
    smog_formula, reading_ease_formula, grade_level_formula.
  eapply gunning_fog_formula; eauto.
Qed.

(** X14: the grade scores have floors, the values they take on an empty
    text: Gunning-Fog is at least 0.4, SMOG at least [1.043 sqrt 3.1291],
    Coleman-Liau at least -16.1 and the automated index at least -20.93. *)
Theorem score_floors (t : str) :
  exists g s c a,
    gunning_fog_score t = Returns (Finite g) /\ 0.4 <= g /\
    smog_index t = Returns (Finite s) /\ 1.043 * sqrt 3.1291 <= s /\
    coleman_liau_index t = Returns (Finite c) /\ -16.1 <= c /\
    automated_readability_index t = Returns (Finite a) /\ -20.93 <= a.
Proof.
  destruct (sentence_count_returns t) as (n & E & Hn).
  destruct (percentage_range t None) as (p & P & Hp).
  assert (H1 : (1 <= n)%Z) by lia.
  pose proof (average_words_formula t n E H1) as A.
  pose proof (quotient_ge_1 (word_count t) n Hn) as Q1.
  assert (Hl : (0 <= letter_count t <= letter_count t + word_count t)%Z).
  { rewrite letter_count_spec. pose proof (word_count_pos t). lia. }
  assert (Q2 : 0 <= IZR (letter_count t) / IZR (word_count t)).
  { assert (0 < IZR (word_count t)) by (apply IZR_lt; pose proof (word_count_pos t); lia).
    unfold Rdiv. apply Rmult_le_pos; [apply IZR_le; lia|].
    left. now apply Rinv_0_lt_compat. }
  assert (Q3 : IZR n / IZR (word_count t) <= 1).
  { apply (quotient_0_1 n (word_count t)); lia. }
  do 4 eexists. split; [eapply gunning_fog_formula; eauto|].
  split; [lra|]. split; [apply (smog_formula t n E H1)|].
  split.
  { apply Rmult_le_compat_l; [lra|]. apply sqrt_le_1_alt. now apply smog_radicand. }
  split; [apply (coleman_liau_formula t n E)|]. split; [lra|].
  split; [apply (readability_formula t n E H1)|]. lra.
Qed.

(** ** The result of [all] *)

(** X15: [all] returns a record that agrees with itself: its cleaned text
    is the cleaning of its original text, it has at least one sentence and
    at least as many words as sentences, its average words per sentence is
    its word count over its sentence count, and its average grade level is
    the mean of its five grade scores. *)
Theorem all_coherent (t : str) :
  exists r,
    all t = Returns r /\
    original r = t /\ cleaned r = clean_text (original r) /\
    (1 <= st_sentence_count (stats r) <= st_word_count (stats r))%Z /\
    st_average_words_per_sentence (stats r) =
      Finite (IZR (st_word_count (stats r)) / IZR (st_sentence_count (stats r))) /\
    r_average_grade_level r =
      mean [r_flesch_kincaid_grade_level r; r_gunning_fog_score r;
            r_coleman_liau_index r; r_smog_index r; r_automated_readability_index r].
Proof.
  destruct (sentence_count_returns t) as (n & En & Hn).
  assert (H1 : (1 <= n)%Z) by lia.
  pose proof (average_words_formula t n En H1) as Ex.
  destruct (flesch_kincaid_reading_ease_returns t) as (fre & Efre).
  destruct (average_grade_level_returns t)
    as (fk & gf & cl & sm & ar & E1 & E2 & E3 & E4 & E5 & E6).
  eexists. split.
  { unfold all. rewrite En, Ex, Efre, E1, E2, E3, E4, E5, E6. cbn [bind]. reflexivity. }
  cbn [original cleaned stats st_sentence_count st_word_count
       st_average_words_per_sentence r_average_grade_level r_flesch_kincaid_grade_level
       r_gunning_fog_score r_coleman_liau_index r_smog_index r_automated_readability_index].
  repeat split; try lia.
  unfold mean. cbn [fold_left List.length Z.of_nat].
  destruct fk as [x|]; [|reflexivity].
  cbn [nadd lift2]. now rewrite Rplus_0_l.
Qed.

Local Close Scope R_scope.

(** ** An upper bound on the sentences *)

Section Count.

Variables (q : ascii -> bool) (r : regex) (rep : str).

(** Either the replacement string has no character of the class, or it
    has one and every match has one too. *)
Hypothesis Hrep :
  List.length (filter q rep) = 0 \/ (List.length (filter q rep) = 1 /\ must q r).

Lemma match_pays b s n :
  exec r b s = Some n ->
  List.length (filter q rep) <= List.length (filter q (firstn n s)).
Proof.
  intros E. destruct Hrep as [->|[-> M]]; [lia|].
  apply exec_in, (mt_must q r M) in E. apply Exists_exists in E.
  destruct E as (c & Hc & Q).
  assert (I : In c (filter q (firstn n s))) by (apply filter_In; auto).
  destruct (filter q (firstn n s)); [destruct I|simpl; lia].
Qed.

(** Such a replacement does not raise the number of class characters. *)
Lemma replace_from_count :
  forall s b k,
    List.length (filter q (replace_from r rep b k s)) <=
    List.length (filter q (skipn k s)).
Proof.
  induction s as [|c s IH]; intros b k.
  - destruct k; cbn [replace_from skipn filter List.length]; [|lia].
    destruct (exec r b []) as [n|] eqn:E; [|destruct (exec r b []); simpl; lia].
    pose proof (match_pays _ _ _ E) as P. rewrite firstn_nil in P.
    destruct n; rewrite app_nil_r; exact P.
  - destruct k as [|k]; cbn [replace_from skipn].
    + destruct (exec r b (c :: s)) as [n|] eqn:E.
      * pose proof (match_pays _ _ _ E) as P. destruct n as [|n].
        -- cbn [firstn filter List.length] in P.
           rewrite filter_app, length_app. cbn [filter].
           specialize (IH false 0). cbn [skipn] in IH.
           destruct (q c); cbn [List.length]; lia.
        -- rewrite filter_app, length_app. specialize (IH false n).
           rewrite <- (firstn_skipn (S n) (c :: s)) at 1.
           rewrite filter_app, length_app. cbn [skipn]. lia.
      * specialize (IH false 0). cbn [skipn] in IH. cbn [filter].
        destruct (q c); cbn [List.length]; lia.
    + apply IH.
Qed.

Lemma replace_g_count s :
  List.length (filter q (replace_g r rep s)) <= List.length (filter q s).
Proof. apply (replace_from_count s true 0). Qed.

End Count.

Lemma terminator_lower c : terminator (lower_char c) = terminator c.
Proof. revert c. by_chars. Qed.

Lemma filter_term_lower s :
  List.length (filter terminator (toLowerCase s)) = List.length (filter terminator s).
Proof.
  induction s as [|c s IH]; [reflexivity|]. cbn [toLowerCase map filter].
  rewrite terminator_lower. unfold toLowerCase in IH.
  destruct (terminator c); simpl; now rewrite IH.
Qed.

Lemma term_drop r rep s :
  List.length (filter terminator rep) = 0 ->
  List.length (filter terminator (replace_g r rep s)) <= List.length (filter terminator s).
Proof. intros H. apply replace_g_count. now left. Qed.

Lemma term_keep r rep s :
  List.length (filter terminator rep) = 1 -> must terminator r ->
  List.length (filter terminator (replace_g r rep s)) <= List.length (filter terminator s).
Proof. intros H M. apply replace_g_count. now right. Qed.

Lemma must_term : must terminator re_term. Proof. needs. Qed.
Lemma must_dup : must terminator re_dup. Proof. unfold re_dup. needs. Qed.
Lemma must_pad : must terminator re_pad. Proof. unfold re_pad. needs. Qed.

(** Past the tags, [clean_text] adds one terminator at most. *)
Lemma clean_text_terminators t :
  List.length (filter terminator (clean_text t)) <=
  S (List.length (filter terminator
       (replace_g objTags [] (fold_left full_stop_tag arrFullStopTags t)))).
Proof.
  cbv beta zeta delta [clean_text]. rewrite filter_term_lower.
  set (x := replace_g objTags [] (fold_left full_stop_tag arrFullStopTags t)).
  pose proof (term_drop re_punct (L " ") x eq_refl) as H1.
  set (x1 := replace_g re_punct (L " ") x) in *.
  pose proof (term_keep re_term (L ".") x1 eq_refl must_term) as H2.
  set (x2 := replace_g re_term (L ".") x1) in *.
  pose proof (term_drop re_trim [] x2 eq_refl) as H3.
  set (x3 := replace_g re_trim [] x2) in *.
  pose proof (term_drop re_spaces (L " ") x3 eq_refl) as H4.
  set (x4 := replace_g re_spaces (L " ") x3) in *.
  assert (H5 : List.length (filter terminator (x4 ++ L ".")) =
               S (List.length (filter terminator x4))).
  { rewrite filter_app, length_app. cbn. lia. }
  set (x5 := x4 ++ L ".") in *.
  pose proof (term_drop re_newline (L " ") x5 eq_refl) as H6.
  set (x6 := replace_g re_newline (L " ") x5) in *.
  pose proof (term_keep re_dup (L ".") x6 eq_refl must_dup) as H7.
  set (x7 := replace_g re_dup (L ".") x6) in *.
  pose proof (term_keep re_pad (L ". ") x7 eq_refl must_pad) as H8.
  set (x8 := replace_g re_pad (L ". ") x7) in *.
  pose proof (term_drop re_trim [] x8 eq_refl) as H9.
  set (x9 := replace_g re_trim [] x8) in *.
  pose proof (term_drop re_spaces (L " ") x9 eq_refl) as H10.
  set (x10 := replace_g re_spaces (L " ") x9) in *.
  pose proof (term_drop re_multi (L " ") x10 eq_refl) as H11.
  lia.
Qed.

(** X16: on a text without [<], the sentences are at most one more than
    the characters [. ! ?] of the text; a text without any of them is one
    sentence. *)
Theorem sentence_count_bound (t : str) :
  ~ In "<"%char t ->
  exists n, sentence_count t = Returns n /\
            (1 <= n <= 1 + Z.of_nat (List.length (filter terminator t)))%Z.
Proof.
  intros H. destruct (sentence_count_returns t) as (n & E & Hn).
  exists n. split; [exact E|]. split; [lia|].
  pose proof (clean_text_terminators t) as B. rewrite (no_lt_untouched t H) in B.
  rewrite sentence_count_spec in E.
  destruct (List.length (filter terminator (clean_text t))) as [|m];
    [discriminate E|]. injection E as <-. lia.
Qed.

Lemma sentence_count_bound_witness :
  ~ In "<"%char (L "no stop here") /\
  exists n, sentence_count (L "no stop here") = Returns n /\
            (1 <= n <= 1 + Z.of_nat (List.length (filter terminator (L "no stop here"))))%Z.
Proof.
  assert (H : ~ In "<"%char (L "no stop here")).
  { cbn. intros G. repeat (destruct G as [G|G]; [discriminate G|]). exact G. }
  split; [exact H|apply (sentence_count_bound (L "no stop here") H)].
Defined.

(** ** A trailing terminator that does not matter *)

Lemma mt_lit_of p :
  forall b s, mt (lit_of p) b s = if starts_with p s then [List.length p] else [].
Proof.
  induction p as [|c p IH]; intros b s; [reflexivity|].
  destruct p as [|d p].
  - cbn [lit_of Lit mt starts_with List.length]. destruct s as [|a s]; [reflexivity|].
    unfold chr. rewrite andb_true_r. now destruct (Ascii.eqb c a).
  - change (lit_of (c :: d :: p)) with (Lit c ;; lit_of (d :: p))%re.
    cbn [mt Lit]. destruct s as [|a s]; [reflexivity|].
    change (starts_with (c :: d :: p) (a :: s))
      with (Ascii.eqb c a && starts_with (d :: p) s)%bool.
    unfold chr at 1. destruct (Ascii.eqb c a); cbn [andb]; [|reflexivity].
    cbn [flat_map skipn]. rewrite IH, app_nil_r.
    destruct (starts_with (d :: p) s); reflexivity.
Qed.

Lemma exec_bol_false r s : exec (Bol ;; r) false s = None.
Proof. reflexivity. Qed.

Lemma search_bol_false r : forall s, search (Bol ;; r) false s = false.
Proof. induction s as [|c s IH]; cbn [search]; rewrite exec_bol_false; auto. Qed.

Lemma exec_bol_lit p s :
  exec (Bol ;; lit_of p) true s = if starts_with p s then Some (List.length p) else None.
Proof.
  unfold exec. cbn [mt flat_map andb Nat.eqb skipn]. rewrite mt_lit_of, app_nil_r.
  destruct (starts_with p s); reflexivity.
Qed.

Lemma test_bol_lit p s : test (Bol ;; lit_of p) s = starts_with p s.
Proof.
  unfold test. destruct s as [|c s]; cbn [search]; rewrite exec_bol_lit;
    destruct (starts_with p _); try reflexivity. apply search_bol_false.
Qed.

Lemma replace_bol_rest r s : replace_from (Bol ;; r) [] false 0 s = s.
Proof.
  apply replace_noop with (P := fun _ => True); auto using exec_bol_false.
Qed.

Lemma starts_with_length p s : starts_with p s = true -> List.length p <= List.length s.
Proof.
  intros H. apply starts_with_split in H. destruct H as [w ->].
  rewrite length_app. lia.
Qed.

(** The two prefix patterns drop the prefix they find. *)
Lemma strip_prefix p g x n :
  p <> [] ->
  strip_affix (x, n) ((Bol ;; lit_of p)%re, g) =
  if starts_with p x then (skipn (List.length p) x, (n + 1)%Z) else (x, n).
Proof.
  intros Hp. cbn [strip_affix]. rewrite test_bol_lit.
  destruct (starts_with p x) eqn:E; [|reflexivity]. f_equal.
  assert (Hl : 0 < List.length p) by (destruct p; [congruence|simpl; lia]).
  destruct g.
  - unfold replace_g. rewrite replace_step, exec_bol_lit, E.
    destruct (List.length p) as [|k]; [lia|]. cbn [app]. apply replace_bol_rest.
  - unfold replace_first. destruct x as [|c x]; cbn [replace_first_from];
      rewrite exec_bol_lit, E; reflexivity.
Qed.

Lemma starts_with_snoc p x :
  ~ In "."%char p -> starts_with p (x ++ L ".") = starts_with p x.
Proof.
  revert x; induction p as [|c p IH]; intros x H; [reflexivity|].
  destruct x as [|a x].
  - cbn [app L list_ascii_of_string starts_with].
    destruct (Ascii.eqb_spec c ".") as [->|_]; [exfalso; apply H; now left|reflexivity].
  - cbn [app starts_with]. rewrite IH by (intros G; apply H; now right). reflexivity.
Qed.

Lemma strip_prefix_snoc p g (x : str) n :
  p <> [] -> ~ In "."%char p ->
  exists k,
    strip_affix (x, n) ((Bol ;; lit_of p)%re, g)
    = ((skipn k x : str), (n + Z.of_nat (Nat.min k 1))%Z) /\
    strip_affix ((x ++ L "." : str), n) ((Bol ;; lit_of p)%re, g)
    = ((skipn k x ++ L "." : str), (n + Z.of_nat (Nat.min k 1))%Z).
Proof.
  intros Hp Hd. rewrite !strip_prefix by assumption. rewrite starts_with_snoc by assumption.
  destruct (starts_with p x) eqn:E.
  - exists (List.length p). assert (0 < List.length p) by (destruct p; [congruence|simpl; lia]).
    replace (Nat.min (List.length p) 1) with 1 by lia.
    split; [reflexivity|]. f_equal. rewrite skipn_app.
    apply starts_with_length in E.
    replace (List.length p - List.length x) with 0 by lia. reflexivity.
  - exists 0. cbn [skipn Nat.min Z.of_nat]. rewrite Z.add_0_r. split; reflexivity.
Qed.

(** A pattern without [^] matches the same at every index. *)
Lemma mt_no_bol r : no_bol r = true -> forall b b' s, mt r b s = mt r b' s.
Proof.
  induction r as [p| | | |r1 IH1 r2 IH2|r1 IH1 r2 IH2|p|p]; cbn [no_bol mt];
    intros N b b' s; try reflexivity; try discriminate.
  - apply andb_true_iff in N. destruct N as [N1 N2].
    rewrite (IH1 N1 b b'). apply flat_map_ext. intros n. f_equal. now apply IH2.
  - apply andb_true_iff in N. destruct N as [N1 N2].
    now rewrite (IH1 N1 b b'), (IH2 N2 b b').
Qed.

Lemma search_skipn r :
  no_bol r = true ->
  forall k s b b', search r b s = false -> search r b' (skipn k s) = false.
Proof.
  intros N. induction k as [|k IH]; intros s b b' H.
  - cbn [skipn]. revert H. destruct s as [|c s]; cbn [search]; unfold exec;
      rewrite (mt_no_bol r N b b'); auto.
  - destruct s as [|c s]; [cbn [skipn]; revert H; cbn [search]; unfold exec;
      rewrite (mt_no_bol r N b b'); auto|].
    cbn [skipn]. cbn [search] in H. destruct (exec r b (c :: s)); [discriminate|].
    eapply IH; exact H.
Qed.

(** The match of a pattern that ends in [$] reaches the end. *)
Lemma mt_to_end r :
  to_end r = true -> forall b s n, In n (mt r b s) -> n = List.length s.
Proof.
  induction r as [p| | | |r1 IH1 r2 IH2|r1 IH1 r2 IH2|p|p]; cbn [to_end mt];
    intros T b s n; try discriminate.
  - destruct s; [|intros []]. now intros [<-|[]].
  - rewrite in_flat_map. intros (n1 & H1 & H). rewrite in_map_iff in H.
    destruct H as (n2 & <- & H2). apply (IH2 T) in H2. rewrite length_skipn in H2.
    apply mt_bound in H1. lia.
  - apply andb_true_iff in T. destruct T as [T1 T2].
    rewrite in_app_iff. intros [H|H]; eauto.
Qed.

Lemma search_to_end q r :
  to_end r = true -> within q r -> nonnull r = true ->
  forall s b, q "."%char = false -> search r b (s ++ L ".") = false.
Proof.
  intros T W N s b Q.
  assert (G : forall u b', exec r b' (u ++ L ".") = None).
  { intros u b'. destruct (exec r b' (u ++ L ".")) as [n|] eqn:E; [|reflexivity].
    exfalso. apply exec_in in E. pose proof (mt_to_end r T _ _ _ E) as Hn.
    pose proof (mt_within q r W _ _ _ E) as Hw. subst n. rewrite firstn_all in Hw.
    apply Forall_app in Hw. destruct Hw as [_ Hw]. inversion Hw; subst. congruence. }
  revert b. induction s as [|c s IH]; intros b.
  - pose proof (G [] b) as G0. change ([] ++ L ".") with ["."%char] in *.
    cbn [search]. rewrite G0.
    destruct (exec r false []) as [n|] eqn:E; [|reflexivity].
    exfalso. apply exec_in in E. pose proof (mt_nonnull r N _ _ _ E).
    apply mt_bound in E. simpl in E. lia.
  - cbn [app search]. change (c :: s ++ L ".") with ((c :: s) ++ L "."). rewrite G. apply IH.
Qed.

Lemma suffix_patterns_shape :
  Forall (fun p => no_bol (fst p) = true /\ to_end (fst p) = true /\
                   within (between "a" "z") (fst p) /\ nonnull (fst p) = true)
         (skipn 2 arrPrefixSuffix).
Proof.
  unfold arrPrefixSuffix. cbn [skipn].
  repeat constructor; cbn [fst within lit lit_of L list_ascii_of_string Lit Opt];
    repeat split; by_chars.
Qed.

Lemma strip_idle (x : str) n l :
  Forall (fun p => test (fst p) x = false) l -> fold_left strip_affix l (x, n) = (x, n).
Proof.
  induction 1 as [|[r g] l T _ IH]; [reflexivity|].
  cbn [fold_left strip_affix]. cbn [fst] in T. now rewrite T.
Qed.

Lemma last_snoc (s : str) c d : last (s ++ [c]) d = c.
Proof. apply last_last. Qed.

Lemma key_without_dot (k s : str) : last k "a"%char <> "."%char -> k <> s ++ L ".".
Proof. intros H ->. apply H. apply last_last. Qed.

Lemma get_property_snoc s : get_property arrProblemWords (s ++ L ".") = None.
Proof.
  unfold get_property. cbn [own_property arrProblemWords find inherited_keys].
  repeat (destruct (list_eq_dec ascii_dec _ (s ++ L ".")) as [E|_];
          [exfalso; revert E; apply key_without_dot; discriminate|]).
  reflexivity.
Qed.

Lemma lower_snoc w : toLowerCase (w ++ L ".") = toLowerCase w ++ L ".".
Proof. unfold toLowerCase. now rewrite map_app. Qed.

Lemma non_lower_snoc y :
  replace_g re_non_lower [] (y ++ L ".") = replace_g re_non_lower [] y.
Proof.
  unfold replace_g, re_non_lower. rewrite !replace_chr, flat_map_app.
  cbn [L list_ascii_of_string flat_map]. now rewrite !app_nil_r.
Qed.

(** X17: a terminator after a word changes nothing when the word, in
    lower case, is not a key of the table of exceptions (nor one inherited
    from [Object.prototype]) and none of the five suffix patterns
    ([ly$], [less$], [ful$], [ers?$], [ings?$]) matches it. *)
Theorem trailing_terminator_harmless (w : str) :
  get_property arrProblemWords (toLowerCase w) = None ->
  Forall (fun p => test (fst p) (toLowerCase w) = false) (skipn 2 arrPrefixSuffix) ->
  syllable_count (w ++ L ".") = syllable_count w.
Proof.
  intros Hk Hs. unfold syllable_count. rewrite lower_snoc, get_property_snoc, Hk.
  cbn [truthy].
  set (lw := toLowerCase w) in *.
  assert (Hsplit : forall a,
    fold_left strip_affix arrPrefixSuffix a =
    fold_left strip_affix (skipn 2 arrPrefixSuffix)
      (strip_affix (strip_affix a ((Bol ;; lit_of (L "un"))%re, false))
                   ((Bol ;; lit_of (L "fore"))%re, true))) by reflexivity.
  rewrite !Hsplit.
  destruct (strip_prefix_snoc (L "un") false lw 0%Z) as (k1 & A1 & B1);
    [discriminate|intros G; repeat (destruct G as [G|G]; [discriminate G|]); exact G|].
  rewrite A1, B1.
  destruct (strip_prefix_snoc (L "fore") true (skipn k1 lw) (0 + Z.of_nat (Nat.min k1 1))%Z)
    as (k2 & A2 & B2);
    [discriminate|intros G; repeat (destruct G as [G|G]; [discriminate G|]); exact G|].
  rewrite A2, B2.
  set (y := skipn k2 (skipn k1 lw)).
  set (n := (0 + Z.of_nat (Nat.min k1 1) + Z.of_nat (Nat.min k2 1))%Z).
  assert (Hy : Forall (fun p => test (fst p) y = false) (skipn 2 arrPrefixSuffix)).
  { pose proof suffix_patterns_shape as Sh. rewrite Forall_forall in *.
    intros p Hp. destruct (Sh p Hp) as (N & _). specialize (Hs p Hp). unfold test in *.
    unfold y. apply (search_skipn _ N k2 _ true true).
    apply (search_skipn _ N k1 _ true true). exact Hs. }
  assert (Hd : Forall (fun p => test (fst p) (y ++ L ".") = false) (skipn 2 arrPrefixSuffix)).
  { pose proof suffix_patterns_shape as Sh. rewrite Forall_forall in *.
    intros p Hp. destruct (Sh p Hp) as (_ & T & W & N).
    unfold test. now apply (search_to_end (between "a" "z")). }
  rewrite (strip_idle _ _ _ Hy), (strip_idle _ _ _ Hd), non_lower_snoc.
  reflexivity.
Qed.

Lemma trailing_terminator_harmless_witness :
  get_property arrProblemWords (toLowerCase (L "Lion")) = None /\
  Forall (fun p => test (fst p) (toLowerCase (L "Lion")) = false) (skipn 2 arrPrefixSuffix) /\
  syllable_count (L "Lion" ++ L ".") = syllable_count (L "Lion").
Proof.
  assert (H1 : get_property arrProblemWords (toLowerCase (L "Lion")) = None) by reflexivity.
  assert (H2 : Forall (fun p => test (fst p) (toLowerCase (L "Lion")) = false)
                      (skipn 2 arrPrefixSuffix)) by (repeat constructor).
  split; [exact H1|split; [exact H2|apply (trailing_terminator_harmless (L "Lion") H1 H2)]].
Defined.
